(** * aws-toolbelt: the DynamoDB helpers of [src/dynamodb.js]

    A shallow embedding of the request builders, the chunking of bulk
    writes and the auto-pagination loop, with the properties the
    specification states about them.

    Conventions of the embedding.
    - A JavaScript object used as a dictionary is a [gmap]; a key bound to
      the value [undefined] is a key bound to [JUndefined].
    - A property that may be absent is an [option]; [None] is [undefined].
    - A [throw] is the constructor [Throw] of [result]; the functions that
      can throw live in that monad.
    - The remote service is a script: the list of the responses it will
      give, in order.  Every call the code issues is recorded in a trace. *)

From stdpp Require Import gmap strings list fin_maps.
From Stdlib Require Import ZArith Lia.

(** ** JavaScript values that are only passed through *)

Inductive jsval : Type :=
  | JUndefined
  | JNull
  | JBool (b : bool)
  | JNum (n : Z)
  | JStr (s : string).

(** ** Exceptions *)

Inductive result (A : Type) : Type :=
  | Ok (a : A)
  | Throw (message : string).
Arguments Ok {A} a.
Arguments Throw {A} message.

Global Instance result_ret : MRet result := λ A a, Ok a.
Global Instance result_bind : MBind result := λ A B k r,
  match r with
  | Ok a => k a
  | Throw e => Throw e
  end.

Definition threw {A} (r : result A) : Prop :=
  match r with Ok _ => False | Throw _ => True end.

(** [array.forEach((x, i) => body)] over a state that the callback mutates;
    a [throw] in the callback leaves the loop. *)
Fixpoint forEachFrom {A St} (body : A → nat → St → result St)
    (i : nat) (l : list A) (s : St) : result St :=
  match l with
  | [] => Ok s
  | x :: l' => s' ← body x i s; forEachFrom body (S i) l' s'
  end.

Definition forEach {A St} (body : A → nat → St → result St)
    (l : list A) (s : St) : result St :=
  forEachFrom body 0 l s.

(** ** Bulk writes: [batchWrite] *)

Module BatchWrite.
Section Requests.
(** A write request is opaque to the helper. *)
Context {Request : Type}.

(** The chunk map [{0: [...], 1: [...], ...}]. *)
Abbreviation ChunkMap := (gmap nat (list Request)).

(** [Object.keys(map).length] *)
Definition keysLength (map : ChunkMap) : nat := size map.

Definition TypeError_length : string :=
  "TypeError: Cannot read properties of undefined (reading 'length')"%string.

(** The callback of [requests.forEach] in [batchWrite].  Reading
    [map[index].length] on a missing index is a [TypeError]. *)
Definition pushRequest (request : Request) (_ : nat) (map : ChunkMap)
  : result ChunkMap :=
  let index := keysLength map - 1 in
  match map !! index with
  | None => Throw TypeError_length
  | Some chunk =>
      if 25 <=? length chunk then
        let nextIndex := index + 1 in
        let map := <[nextIndex := []]> map in
        Ok (<[nextIndex := [request]]> map)
      else
        Ok (<[index := chunk ++ [request]]> map)
  end.

(** The first statement and the loop of [batchWrite]. *)
Definition chunkRequests (requests : list Request) : result ChunkMap :=
  forEach pushRequest requests {[ 0 := [] ]}.

(** The chunks as [_batchWrite] reads them: [map[0]], [map[1]], ... up to
    [Object.keys(map).length - 1]. *)
Definition chunksOf (map : ChunkMap) : list (option (list Request)) :=
  (λ index, map !! index) <$> seq 0 (keysLength map).

(** The argument of [documentClient.batchWrite]:
    [{RequestItems: {[tableName]: map[index]}}], where a missing
    [map[index]] is [undefined]. *)
Record BatchWriteInput : Type := {
  RequestItems : gmap string (option (list Request));
}.

(** What the service passes to the callback: [err] and [data]. *)
Record BatchWriteData : Type := {
  UnprocessedItems : gmap string (list Request);
}.
Record BatchWriteReply : Type := {
  err : option string;
  data : option BatchWriteData;
}.

(** The names every plain object inherits from [Object.prototype]; the
    value found under each of them is truthy. *)
Definition objectPrototypeProperties : list string :=
  [ "constructor"; "__defineGetter__"; "__defineSetter__"; "hasOwnProperty";
    "__lookupGetter__"; "__lookupSetter__"; "isPrototypeOf";
    "propertyIsEnumerable"; "toString"; "valueOf"; "__proto__";
    "toLocaleString" ]%string.

(** [data && data.UnprocessedItems[tableName]].  The property read finds an
    entry of [UnprocessedItems] itself, an array, which is truthy also when
    it is empty, or else what the object inherits under that name: for a
    table called [constructor], say, the test is truthy for every answer
    that has [data]. *)
Definition unprocessed (tableName : string) (reply : BatchWriteReply) : bool :=
  match data reply with
  | Some d =>
      bool_decide (is_Some (UnprocessedItems d !! tableName))
      || existsb (String.eqb tableName) objectPrototypeProperties
  | None => false
  end.

(** [_batchWrite]: the calls it issues, against the script [replies] of
    what the service passes to the successive callbacks.  A call whose
    callback never runs is the last one. *)
Fixpoint _batchWrite (index : nat) (map : ChunkMap) (tableName : string)
    (keepGoing : bool) (replies : list BatchWriteReply)
  : list BatchWriteInput :=
  {| RequestItems := {[ tableName := map !! index ]} |} ::
  match replies with
  | [] => []
  | reply :: replies' =>
      if unprocessed tableName reply then []
      else if keepGoing then
        if keysLength map - 1 <=? index then []
        else _batchWrite (index + 1) map tableName keepGoing replies'
      else []
  end.

(** [batchWrite]: the chunk map it builds and the calls it issues. *)
Definition batchWrite (requests : list Request) (tableName : string)
    (replies : list BatchWriteReply)
  : result (ChunkMap * list BatchWriteInput) :=
  map ← chunkRequests requests;
  Ok (map, _batchWrite 0 map tableName true replies).
End Requests.
Arguments BatchWriteInput : clear implicits.
Arguments BatchWriteData : clear implicits.
Arguments BatchWriteReply : clear implicits.
End BatchWrite.

(** ** String helpers of the expression builders *)

Section Strings.
Local Open Scope string_scope.

(** [`${x}`] for an [x] that is a string or [undefined]. *)
Definition interp (x : option string) : string :=
  match x with
  | Some s => s
  | None => "undefined"
  end.

(** The double-quote character of the error messages. *)
Definition dquote : string := String (Ascii.ascii_of_nat 34) EmptyString.

(** [Array.prototype.includes] on an array of strings. *)
Definition includes (array : list string) (x : string) : bool :=
  existsb (String.eqb x) array.

(** [String.prototype.includes]: [sub] occurs somewhere in [s]. *)
Fixpoint str_includes (s sub : string) : bool :=
  String.prefix sub s ||
  match s with
  | EmptyString => false
  | String _ s' => str_includes s' sub
  end.

Definition invalidOperation (operation : string) : string :=
  "Invalid operation " ++ dquote ++ operation ++ dquote ++ " used.".
End Strings.

(** ** Key conditions: [_constructQueryParams] *)

Module KeyCondition.
(** The object form of [sortKeyValueKeyCondition]; an absent [value],
    [value1] or [value2] is [JUndefined]. *)
Record t : Type := mk {
  operation : option string;
  value : jsval;
  value1 : jsval;
  value2 : jsval;
}.
End KeyCondition.

(** The argument [sortKeyValueKeyCondition]: [string|Object], or omitted. *)
Inductive SortKeyArg : Type :=
  | SortKeyUndefined
  | SortKeyString (s : string)
  | SortKeyObject (c : KeyCondition.t).

Module QueryParams.
Record t : Type := mk {
  TableName : string;
  KeyConditionExpression : string;
  ExpressionAttributeValues : gmap string jsval;
}.

(** [params.KeyConditionExpression += s] *)
Definition appendKeyCondition (params : t) (s : string) : t :=
  {| TableName := TableName params;
     KeyConditionExpression := (KeyConditionExpression params ++ s)%string;
     ExpressionAttributeValues := ExpressionAttributeValues params |}.

(** [params.ExpressionAttributeValues[k] = v] *)
Definition setValue (params : t) (k : string) (v : jsval) : t :=
  {| TableName := TableName params;
     KeyConditionExpression := KeyConditionExpression params;
     ExpressionAttributeValues := <[k := v]> (ExpressionAttributeValues params) |}.
End QueryParams.

Section QueryBuilder.
Local Open Scope string_scope.
Import QueryParams.

(** [if (sortKeyValueKeyCondition)]: the empty string is falsy. *)
Definition truthy (x : SortKeyArg) : bool :=
  match x with
  | SortKeyUndefined => false
  | SortKeyString s => negb (String.eqb s "")
  | SortKeyObject _ => true
  end.

Definition keyOperations : list string :=
  ["="; ">"; ">="; "<"; "<="; "between"; "begins_with"].

Definition _constructQueryParams (tableName : string)
    (primaryKey : option string) (primaryKeyValue : jsval)
    (sortKey : option string) (sortKeyValueKeyCondition : SortKeyArg)
  : result QueryParams.t :=
  let params :=
    {| TableName := tableName;
       KeyConditionExpression := interp primaryKey ++ " = :pkvalue";
       ExpressionAttributeValues := {[ ":pkvalue" := primaryKeyValue ]} |} in
  if truthy sortKeyValueKeyCondition then
    match sortKeyValueKeyCondition with
    | SortKeyString s =>
        let params := appendKeyCondition params
          (" and begins_with(" ++ interp sortKey ++ ", :skvalue)") in
        Ok (setValue params ":skvalue" (JStr s))
    | SortKeyObject c =>
        let operation := default "=" (KeyCondition.operation c) in
        let value := KeyCondition.value c in
        let value1 := KeyCondition.value1 c in
        let value2 := KeyCondition.value2 c in
        let isValidOperation := includes keyOperations operation in
        if negb isValidOperation then Throw (invalidOperation operation)
        else if String.eqb operation "begins_with" then
          let params := appendKeyCondition params
            (" and begins_with(" ++ interp sortKey ++ ", :skvalue)") in
          Ok (setValue params ":skvalue" value)
        else if String.eqb operation "between" then
          let params := appendKeyCondition params
            (" and " ++ interp sortKey ++ " between :skvalue1 and :skvalue2 ") in
          let params := setValue params ":skvalue1" value1 in
          Ok (setValue params ":skvalue2" value2)
        else
          let params := appendKeyCondition params
            (" and " ++ interp sortKey ++ " " ++ operation ++ " :skvalue") in
          Ok (setValue params ":skvalue" value)
    | SortKeyUndefined =>
        Throw "TypeError: Cannot destructure 'sortKeyValueKeyCondition'"
    end
  else Ok params.
End QueryBuilder.

(** ** Filters: [_buildFilterQuery] and [_constructScanParams] *)

Module Filter.
Record t : Type := mk {
  attribute : option string;
  operation : option string;
  value : jsval;
  value1 : jsval;
  value2 : jsval;
}.
End Filter.

Module FilterQuery.
Record t : Type := mk {
  expression : string;
  expressionAttributeValues : gmap string jsval;
}.
End FilterQuery.

(** The argument [filters]: [Array|Object], or omitted. *)
Inductive FiltersArg : Type :=
  | FiltersUndefined
  | FiltersArray (filters : list Filter.t)
  | FiltersObject (filter : Filter.t).

Module ScanParams.
Record t : Type := mk {
  TableName : string;
  FilterExpression : option string;
  ExpressionAttributeValues : option (gmap string jsval);
}.
End ScanParams.

Section FilterBuilder.
Local Open Scope string_scope.
Import FilterQuery.

Definition filterOperations : list string :=
  ["="; "!="; ">"; ">="; "<"; "<="; "between"; "exists"; "not exists";
   "contains"; "not contains"; "begins_with"].

Definition _buildFilterQuery (filter : Filter.t) : result FilterQuery.t :=
  let attribute := Filter.attribute filter in
  let operation := default "=" (Filter.operation filter) in
  let value := Filter.value filter in
  let value1 := Filter.value1 filter in
  let value2 := Filter.value2 filter in
  let isValidOperation := includes filterOperations operation in
  if negb isValidOperation then Throw (invalidOperation operation)
  else if str_includes operation "begins_with"
          || str_includes operation "contains" then
    Ok {| expression :=
            operation ++ "(" ++ interp attribute ++ ", :"
                      ++ interp attribute ++ "Value)";
          expressionAttributeValues :=
            {[ ":" ++ interp attribute ++ "Value" := value ]} |}
  else if String.eqb operation "exists" then
    Ok {| expression := "attribute_exists(" ++ interp attribute ++ ")";
          expressionAttributeValues := ∅ |}
  else if String.eqb operation "not exists" then
    Ok {| expression := "attribute_not_exists(" ++ interp attribute ++ ")";
          expressionAttributeValues := ∅ |}
  else if String.eqb operation "between" then
    Ok {| expression :=
            interp attribute ++ " between :" ++ interp attribute
              ++ "Value1 and :" ++ interp attribute ++ "Value2";
          expressionAttributeValues :=
            <[ ":" ++ interp attribute ++ "Value2" := value2 ]>
              {[ ":" ++ interp attribute ++ "Value1" := value1 ]} |}
  else
    Ok {| expression :=
            interp attribute ++ " " ++ operation ++ " :"
              ++ interp attribute ++ "Value";
          expressionAttributeValues :=
            {[ ":" ++ interp attribute ++ "Value" := value ]} |}.

(** The object spread [{...a, ...b}]: the properties of [b] win, and
    spreading [undefined] adds nothing. *)
Definition spread (a : option (gmap string jsval)) (b : gmap string jsval)
  : gmap string jsval :=
  b ∪ default ∅ a.

(** The callback of [filters.forEach] in [_constructScanParams]. *)
Definition addFilter (filter : Filter.t) (i : nat) (params : ScanParams.t)
  : result ScanParams.t :=
  q ← _buildFilterQuery filter;
  if (0 <? i)%nat then
    Ok {| ScanParams.TableName := ScanParams.TableName params;
          ScanParams.FilterExpression :=
            Some (interp (ScanParams.FilterExpression params)
                    ++ " and " ++ expression q);
          ScanParams.ExpressionAttributeValues :=
            Some (spread (ScanParams.ExpressionAttributeValues params)
                         (expressionAttributeValues q)) |}
  else
    Ok {| ScanParams.TableName := ScanParams.TableName params;
          ScanParams.FilterExpression := Some (expression q);
          ScanParams.ExpressionAttributeValues :=
            Some (expressionAttributeValues q) |}.

Definition _constructScanParams (tableName : string) (filters : FiltersArg)
  : result ScanParams.t :=
  let params :=
    {| ScanParams.TableName := tableName;
       ScanParams.FilterExpression := None;
       ScanParams.ExpressionAttributeValues := None |} in
  match filters with
  | FiltersUndefined => Ok params
  | FiltersArray filters => forEach addFilter filters params
  | FiltersObject filter =>
      q ← _buildFilterQuery filter;
      Ok {| ScanParams.TableName := tableName;
            ScanParams.FilterExpression := Some (expression q);
            ScanParams.ExpressionAttributeValues :=
              Some (expressionAttributeValues q) |}
  end.
End FilterBuilder.

(** ** The remote service *)

(** An element of [Table.KeySchema] in the answer of [describeTable]. *)
Record KeySchemaElement : Type := {
  AttributeName : string;
  KeyType : string;
}.

(** [_getTableKeySchema]: the reduction of [Table.KeySchema] into an object
    from key type to attribute name.  [describeTable] gives the key schema
    the service answers for a table name. *)
Definition _getTableKeySchema (describeTable : string → list KeySchemaElement)
    (tableName : string) : gmap string string :=
  let keySchema := describeTable tableName in
  foldl (λ map e, <[KeyType e := AttributeName e]> map) ∅ keySchema.

(** The result of an [await]ed call or of an [async] function: the promise
    is fulfilled, rejected, or still waiting for an answer of the service
    that the script does not contain. *)
Inductive outcome (A : Type) : Type :=
  | Fulfilled (a : A)
  | Rejected (message : string)
  | Pending.
Arguments Fulfilled {A} a.
Arguments Rejected {A} message.
Arguments Pending {A}.

(** A response of [query] or [scan].  The accumulator of [_autoPaginate] is
    an object of the same shape without [LastEvaluatedKey]. *)
Record Results (Item Key : Type) : Type := {
  Count : Z;
  ScannedCount : Z;
  Items : list Item;
  LastEvaluatedKey : option Key;
}.
Arguments Count {Item Key} _.
Arguments ScannedCount {Item Key} _.
Arguments Items {Item Key} _.
Arguments LastEvaluatedKey {Item Key} _.

(** The object sent to [documentClient.query] or [documentClient.scan]: the
    properties of [params], and [ExclusiveStartKey] when it has been set. *)
Record Request (Params Key : Type) : Type := {
  params : Params;
  ExclusiveStartKey : option Key;
}.
Arguments params {Params Key} _.
Arguments ExclusiveStartKey {Params Key} _.

(** What happens at the boundary with the service, in order. *)
Inductive Event (Params Item Key : Type) : Type :=
  | Call (method : string) (queryParams : Request Params Key)
  | Reply (results : Results Item Key).
Arguments Call {Params Item Key} method queryParams.
Arguments Reply {Params Item Key} results.

(** ** Auto-pagination *)

Section Pagination.
Context {Params Item Key : Type}.
Local Open Scope string_scope.

Abbreviation Page := (Results Item Key).
Abbreviation Trace := (list (Event Params Item Key)).

(** The three updates of [aggregatedResults] in [_autoPaginate]. *)
Definition accumulate (aggregatedResults results : Page) : Page :=
  {| Count := (Count aggregatedResults + Count results)%Z;
     ScannedCount :=
       (ScannedCount aggregatedResults + ScannedCount results)%Z;
     Items := Items aggregatedResults ++ Items results;
     LastEvaluatedKey := LastEvaluatedKey aggregatedResults |}.

(** [_autoPaginate], run against the script [pages] of the answers the
    service gives to the successive calls.  It returns the trace of the
    calls and answers and the state of the promise.  The script holds
    pages only: a call that the service fails is outside the model. *)
Fixpoint _autoPaginate (parameters : Params) (method : string)
    (aggregatedResults : Page) (lastEvaluatedKey : option Key)
    (pages : list Page) : Trace * outcome Page :=
  if negb (String.eqb method "scan") && negb (String.eqb method "query") then
    ([], Rejected ("Invalid method " ++ method ++ " provided."))
  else
    let queryParams :=
      {| params := parameters;
         ExclusiveStartKey :=
           match lastEvaluatedKey with
           | Some key => Some key
           | None => None
           end |} in
    match pages with
    | [] => ([Call method queryParams], Pending)
    | results :: pages' =>
        let aggregatedResults := accumulate aggregatedResults results in
        match LastEvaluatedKey results with
        | Some key =>
            let '(trace, promise) :=
              _autoPaginate parameters method aggregatedResults (Some key)
                            pages' in
            (Call method queryParams :: Reply results :: trace, promise)
        | None =>
            ([Call method queryParams; Reply results],
             Fulfilled aggregatedResults)
        end
    end.

(** The accumulator both public functions start from. *)
Definition emptyResults : Page :=
  {| Count := 0; ScannedCount := 0; Items := []; LastEvaluatedKey := None |}.

(** A single awaited call of [documentClient[method](parameters)]. *)
Definition callOnce (method : string) (parameters : Params)
    (pages : list Page) : Trace * outcome Page :=
  let request := {| params := parameters; ExclusiveStartKey := None |} in
  match pages with
  | [] => ([Call method request], Pending)
  | results :: _ => ([Call method request; Reply results], Fulfilled results)
  end.
End Pagination.

(** ** The public functions

    [describeTable] gives the [Table.KeySchema] the service answers for a
    table name; [pages] is the script of the answers of [documentClient],
    whose calls the trace records. *)

Section PublicFunctions.
Context {Item Key : Type}.
Variable describeTable : string → list KeySchemaElement.
Local Open Scope string_scope.

Definition queryParamsFor (tableName : string) (primaryKeyValue : jsval)
    (sortKeyValueOrKeyCondition : SortKeyArg) : result QueryParams.t :=
  let schema := _getTableKeySchema describeTable tableName in
  let primaryKey := schema !! "HASH" in
  let sortKey := schema !! "RANGE" in
  _constructQueryParams tableName primaryKey primaryKeyValue sortKey
                        sortKeyValueOrKeyCondition.

Definition queryTable (tableName : string) (primaryKeyValue : jsval)
    (sortKeyValueOrKeyCondition : SortKeyArg)
    (pages : list (Results Item Key))
  : list (Event QueryParams.t Item Key) * outcome (Results Item Key) :=
  match queryParamsFor tableName primaryKeyValue sortKeyValueOrKeyCondition with
  | Throw e => ([], Rejected e)
  | Ok parameters => callOnce "query" parameters pages
  end.

Definition queryTableWithAutoPagination (tableName : string)
    (primaryKeyValue : jsval) (sortKeyValueOrKeyCondition : SortKeyArg)
    (pages : list (Results Item Key))
  : list (Event QueryParams.t Item Key) * outcome (Results Item Key) :=
  match queryParamsFor tableName primaryKeyValue sortKeyValueOrKeyCondition with
  | Throw e => ([], Rejected e)
  | Ok parameters => _autoPaginate parameters "query" emptyResults None pages
  end.

Definition scanTable (tableName : string) (filters : FiltersArg)
    (pages : list (Results Item Key))
  : list (Event ScanParams.t Item Key) * outcome (Results Item Key) :=
  match _constructScanParams tableName filters with
  | Throw e => ([], Rejected e)
  | Ok parameters => callOnce "scan" parameters pages
  end.

Definition scanTableWithAutoPagination (tableName : string)
    (filters : FiltersArg) (pages : list (Results Item Key))
  : list (Event ScanParams.t Item Key) * outcome (Results Item Key) :=
  match _constructScanParams tableName filters with
  | Throw e => ([], Rejected e)
  | Ok parameters => _autoPaginate parameters "scan" emptyResults None pages
  end.
End PublicFunctions.

(** * Vocabulary of the properties *)

Section ChunkingVocabulary.
Context {Request : Type}.

(** The shape of the chunk map between two iterations: full chunks
    followed by one chunk that is still open. *)
Definition wellChunked (full : list (list Request)) (open : list Request)
    (map : gmap nat (list Request)) : Prop :=
  map = map_seq 0 (full ++ [open]) ∧
  Forall (λ chunk, length chunk = 25) full ∧
  length open ≤ 25.
End ChunkingVocabulary.

Section PaginationVocabulary.
Context {Params Item Key : Type}.

Definition sumZ (l : list Z) : Z := foldr Z.add 0%Z l.

(** The aggregate of a sequence of pages: the sums of the counts and the
    concatenation of the items, in page order. *)
Definition totals (pages : list (Results Item Key)) : Results Item Key :=
  {| Count := sumZ (Count <$> pages);
     ScannedCount := sumZ (ScannedCount <$> pages);
     Items := concat (Items <$> pages);
     LastEvaluatedKey := None |}.

(** [method] passes the check at the head of [_autoPaginate]. *)
Definition validMethod (method : string) : Prop :=
  method = "scan" ∨ method = "query".
End PaginationVocabulary.

Section FilterVocabulary.
(** The bindings of a list of filter queries in one object; where two
    filters bind the same placeholder, the later one wins, as in
    [{...earlier, ...later}]. *)
Definition unionOfBindings (queries : list FilterQuery.t)
  : gmap string jsval :=
  ⋃ reverse (FilterQuery.expressionAttributeValues <$> queries).

(** [expressions.join(' and ')] *)
Definition joinAnd (expressions : list string) : string :=
  String.concat " and " expressions.
End FilterVocabulary.

(** * Sample inputs *)

Section Samples.
(** A table with hash key [id] and range key [ts]. *)
Definition sampleSchema (tableName : string) : list KeySchemaElement :=
  [ {| AttributeName := "id"; KeyType := "HASH" |};
    {| AttributeName := "ts"; KeyType := "RANGE" |} ].

(** Three pages of a table whose items and keys are numbers; the third
    page is the last one. *)
Definition samplePage1 : Results nat nat :=
  {| Count := 2; ScannedCount := 5; Items := [10; 11];
     LastEvaluatedKey := Some 11 |}.
Definition samplePage2 : Results nat nat :=
  {| Count := 1; ScannedCount := 5; Items := [12];
     LastEvaluatedKey := Some 12 |}.
Definition samplePage3 : Results nat nat :=
  {| Count := 3; ScannedCount := 4; Items := [13; 14; 15];
     LastEvaluatedKey := None |}.

Definition sampleFilters : list Filter.t :=
  [ Filter.mk (Some "age") (Some ">") (JNum 18) JUndefined JUndefined;
    Filter.mk (Some "name") (Some "not contains") (JStr "A")
              JUndefined JUndefined;
    Filter.mk (Some "age") (Some "between") JUndefined (JNum 1) (JNum 2) ].
End Samples.

(** * The credential set-up of [src/config.js] *)

Module Config.
(** The four variables read from [process.env]; an unset variable is
    [None]. *)
Record Env : Type := {
  AWS_REGION : option string;
  AWS_CONFIG_FILE : option string;
  AWS_ACCESS_KEY_ID : option string;
  AWS_SECRET_ACCESS_KEY : option string;
}.

(** What the script does to the outside: lines of [console.info] and
    calls of [AWS.config].  An error raised inside [AWS.config.loadFromPath]
    belongs to the SDK and is not part of the model. *)
Inductive Action : Type :=
  | Info (message : string)
  | Update (region : string)
  | LoadFromPath (path : string).

Section Script.
(** [path.resolve], [path.join], [os.homedir()] and [fs.existsSync] belong
    to the platform. *)
Variable resolve : string → string.
Variable join : list string → string.
Variable homedir : string.
Variable existsSync : string → bool.

(** The truthiness of an environment variable: set and not empty. *)
Definition isSet (x : option string) : bool :=
  match x with
  | Some s => negb (String.eqb s "")
  | None => false
  end.

(** The script: the actions it performs, and the message of the error it
    throws, if it throws.  In the first branch [AWS_CONFIG_FILE] is set, so
    that the default in the argument of [resolve] is never used. *)
Definition config (env : Env) : list Action * option string :=
  let region := default "us-east-1" (AWS_REGION env) in
  let start :=
    [ Info ("Initializing AWS DynamoDB with region: " +:+ region +:+ ".");
      Update region ] in
  if isSet (AWS_CONFIG_FILE env) then
    (start ++ [ Info "Usinging AWS credentials from JSON config file.";
                LoadFromPath (resolve (default "" (AWS_CONFIG_FILE env))) ],
     None)
  else if isSet (AWS_ACCESS_KEY_ID env) && isSet (AWS_SECRET_ACCESS_KEY env)
  then
    (start ++ [ Info ("Using AWS credentials AWS_ACCESS_KEY_ID and "
                        +:+ "AWS_SECRET_ACCESS_KEY environment variables.") ],
     None)
  else if existsSync (join [homedir; ".aws"; "credentials"]) then
    (start ++ [ Info "Using AWS credentials from credentials file." ], None)
  else (start, Some "Unable to set AWS credentials.").
End Script.
End Config.

(** * Further vocabulary *)

Section BatchVocabulary.
Context {Request : Type}.

(** The call that carries one chunk. *)
Definition callFor (tableName : string) (chunk : list Request)
  : BatchWrite.BatchWriteInput Request :=
  {| BatchWrite.RequestItems := {[ tableName := Some chunk ]} |}.

(** The number of answers at the head of the script that report no
    unprocessed items for the table. *)
Fixpoint cleanPrefix (tableName : string)
    (replies : list (BatchWrite.BatchWriteReply Request)) : nat :=
  match replies with
  | [] => 0
  | reply :: replies' =>
      if BatchWrite.unprocessed tableName reply then 0
      else S (cleanPrefix tableName replies')
  end.

(** [wellChunked], and the open chunk is empty only before the first
    request. *)
Definition tightlyChunked (full : list (list Request)) (open : list Request)
    (map : gmap nat (list Request)) : Prop :=
  wellChunked full open map ∧ (open = [] → full = []).
End BatchVocabulary.

Section BuilderVocabulary.
(** The operations of a filter that compare the attribute with one value. *)
Definition comparisonOperations : list string :=
  ["="; "!="; ">"; ">="; "<"; "<="].

(** The operations of a filter that are written as a function call. *)
Definition functionOperations : list string :=
  ["begins_with"; "contains"; "not contains"].

(** The expression that constrains the primary key only. *)
Definition primaryKeyCondition (primaryKey : option string) : string :=
  interp primaryKey +:+ " = :pkvalue".

(** A page whose [Count] is the number of its [Items]. *)
Definition countsItems {Item Key : Type} (page : Results Item Key) : Prop :=
  Count page = Z.of_nat (length (Items page)).
End BuilderVocabulary.

(** * Further sample inputs *)

Section FurtherSamples.
(** An answer of [batchWrite] with nothing left unprocessed, and one that
    hands an item of table [T] back. *)
Definition cleanReply : BatchWrite.BatchWriteReply nat :=
  {| BatchWrite.err := None;
     BatchWrite.data := Some {| BatchWrite.UnprocessedItems := ∅ |} |}.
Definition dirtyReply : BatchWrite.BatchWriteReply nat :=
  {| BatchWrite.err := None;
     BatchWrite.data :=
       Some {| BatchWrite.UnprocessedItems := {[ "T" := [7] ]} |} |}.

(** A table with a hash key only. *)
Definition hashOnlySchema (tableName : string) : list KeySchemaElement :=
  [ {| AttributeName := "id"; KeyType := "HASH" |} ].

Definition betweenCondition : KeyCondition.t :=
  KeyCondition.mk (Some "between") JUndefined (JNum 1) (JNum 9).

Definition olderThan18 : Filter.t :=
  Filter.mk (Some "age") (Some ">") (JNum 18) JUndefined JUndefined.
Definition youngerThan65 : Filter.t :=
  Filter.mk (Some "age") (Some "<") (JNum 65) JUndefined JUndefined.
End FurtherSamples.

(** * Properties *)

(** ** Chunking of bulk writes *)

Section ChunkingFacts.
Import BatchWrite.
Context {Request : Type}.
Implicit Types (chunk : list Request) (chunks : list (list Request)).
Implicit Types (map : gmap nat (list Request)).

Lemma size_map_seq start chunks :
  size (map_seq start chunks : gmap nat (list Request)) = length chunks.
Proof.
  revert start. induction chunks as [|c chunks IH]; intros start.
  - apply map_size_empty.
  - rewrite map_seq_cons, map_size_insert_None
      by apply map_seq_cons_disjoint.
    simpl. by rewrite IH.
Qed.

Lemma chunksOf_map_seq chunks :
  chunksOf (map_seq 0 chunks) = Some <$> chunks.
Proof.
  unfold chunksOf, keysLength. rewrite size_map_seq.
  apply list_eq. intros i. rewrite !list_lookup_fmap.
  destruct (decide (i < length chunks)) as [Hlt|Hge].
  - rewrite lookup_seq_lt by done. simpl.
    rewrite lookup_map_seq_0.
    destruct (lookup_lt_is_Some_2 chunks i Hlt) as [c ->]. done.
  - rewrite lookup_seq_ge by lia. rewrite lookup_ge_None_2 by lia. done.
Qed.

Lemma pushRequest_wellChunked full open map request i :
  wellChunked full open map →
  ∃ full' open' map',
    pushRequest request i map = Ok map' ∧
    wellChunked full' open' map' ∧
    concat (full' ++ [open']) = concat (full ++ [open]) ++ [request].
Proof.
  intros (-> & Hfull & Hopen). unfold pushRequest, keysLength.
  rewrite size_map_seq, length_app.
  replace (length full + length [open] - 1) with (length full)
    by (simpl; lia).
  rewrite lookup_map_seq_0, lookup_app_r by lia.
  rewrite Nat.sub_diag.
  change ([open] !! 0) with (Some open). cbv beta iota zeta.
  destruct (25 <=? length open) eqn:Hfilled.
  - apply Nat.leb_le in Hfilled.
    exists (full ++ [open]), [request]. eexists. split; [reflexivity|].
    split; [|by rewrite (concat_app (full ++ [open]))].
    split; [|split].
    + rewrite insert_insert_eq.
      rewrite (map_seq_snoc 0 (full ++ [open])), length_app. done.
    + apply Forall_app. split; [done|]. constructor; [lia|constructor].
    + simpl. lia.
  - apply Nat.leb_gt in Hfilled.
    exists full, (open ++ [request]). eexists. split; [reflexivity|].
    split; [split; [|split]|].
    + rewrite !map_seq_snoc. simpl. by rewrite insert_insert_eq.
    + done.
    + rewrite length_app. simpl. lia.
    + rewrite !concat_app. simpl. rewrite !app_nil_r.
      by rewrite app_assoc.
Qed.

Lemma forEachFrom_pushRequest requests : ∀ i full open map,
  wellChunked full open map →
  ∃ full' open' map',
    forEachFrom pushRequest i requests map = Ok map' ∧
    wellChunked full' open' map' ∧
    concat (full' ++ [open']) = concat (full ++ [open]) ++ requests.
Proof.
  induction requests as [|request requests IH]; intros i full open map Hwc.
  - exists full, open, map. rewrite app_nil_r. split; [reflexivity|]. split; [exact Hwc|reflexivity].
  - destruct (pushRequest_wellChunked full open map request i Hwc)
      as (full1 & open1 & map1 & Hpush & Hwc1 & Hcat1).
    destruct (IH (S i) full1 open1 map1 Hwc1)
      as (full2 & open2 & map2 & Hrest & Hwc2 & Hcat2).
    exists full2, open2, map2. split; [|split; [done|]].
    + simpl. rewrite Hpush. exact Hrest.
    + rewrite Hcat2, Hcat1, <- app_assoc. done.
Qed.

(** C1. [batchWrite] splits every list of write requests into consecutive
    chunks, in input order: the chunk map has the keys [0 .. n-1], its
    chunks concatenate to the request list, no chunk has more than 25
    items and every chunk but the last has exactly 25. *)
Theorem batchWrite_chunks (requests : list Request) :
  ∃ map chunks,
    chunkRequests requests = Ok map ∧
    chunksOf map = Some <$> chunks ∧
    concat chunks = requests ∧
    Forall (λ chunk, length chunk ≤ 25) chunks ∧
    (∀ i chunk,
       S i < length chunks → chunks !! i = Some chunk → length chunk = 25).
Proof.
  destruct (forEachFrom_pushRequest requests 0 [] [] {[ 0 := [] ]})
    as (full & open & map & Hrun & (-> & Hfull & Hopen) & Hcat).
  { split; [done|]. split; [constructor|simpl; lia]. }
  exists (map_seq 0 (full ++ [open])), (full ++ [open]).
  split; [exact Hrun|]. split; [apply chunksOf_map_seq|].
  split; [exact Hcat|]. split.
  - apply Forall_app. split.
    + eapply Forall_impl; [exact Hfull|]. simpl. intros; lia.
    + constructor; [done|constructor].
  - intros i chunk Hi Hlook. rewrite length_app in Hi. simpl in Hi.
    rewrite lookup_app_l in Hlook by lia.
    eapply Forall_lookup_1 in Hfull; [|exact Hlook]. done.
Qed.
End ChunkingFacts.

(** C10. For the empty list of write requests [batchWrite] builds the chunk
    map [{0: []}], whose only chunk is empty, and issues exactly one
    [batchWrite] call, whose item list for the table is the empty list,
    whatever the service answers. *)
Theorem batchWrite_empty {Request : Type} (tableName : string)
    (replies : list (BatchWrite.BatchWriteReply Request)) :
  ∃ map call,
    BatchWrite.batchWrite [] tableName replies = Ok (map, [call]) ∧
    map = {[ 0 := [] ]} ∧
    BatchWrite.chunksOf map = [Some []] ∧
    BatchWrite.RequestItems call = {[ tableName := Some [] ]}.
Proof.
  exists {[ 0 := [] ]}, {| BatchWrite.RequestItems := {[ tableName := Some [] ]} |}.
  split; [|by repeat split].
  unfold BatchWrite.batchWrite, BatchWrite.chunkRequests, forEach. simpl.
  do 2 f_equal.
  destruct replies as [|reply replies]; cbn [BatchWrite._batchWrite];
    rewrite lookup_singleton_eq; [reflexivity|].
  destruct (BatchWrite.unprocessed tableName reply); reflexivity.
Qed.

(** ** Auto-pagination *)

Section PaginationFacts.
Context {Params Item Key : Type}.
Implicit Types (parameters : Params) (method : string).
Implicit Types (page results aggregatedResults : Results Item Key).
Implicit Types (pages : list (Results Item Key)).
Implicit Types (lastEvaluatedKey : option Key).

Lemma validMethod_check method :
  validMethod method →
  negb (String.eqb method "scan") && negb (String.eqb method "query") = false.
Proof. by intros [-> | ->]. Qed.

Lemma autoPaginate_invalid parameters method aggregatedResults
    lastEvaluatedKey pages :
  ¬ validMethod method →
  (_autoPaginate parameters method aggregatedResults lastEvaluatedKey
                 pages).1 = [].
Proof.
  intros Hinvalid.
  destruct (String.eqb_spec method "scan") as [->|Hscan].
  { destruct Hinvalid. by left. }
  destruct (String.eqb_spec method "query") as [->|Hquery].
  { destruct Hinvalid. by right. }
  destruct pages; simpl.
  all: apply String.eqb_neq in Hscan, Hquery; by rewrite Hscan, Hquery.
Qed.

Lemma autoPaginate_pending parameters method aggregatedResults
    lastEvaluatedKey :
  validMethod method →
  _autoPaginate parameters method aggregatedResults lastEvaluatedKey [] =
  ([Call method {| params := parameters;
                   ExclusiveStartKey := lastEvaluatedKey |}], Pending).
Proof.
  intros Hvalid. simpl. rewrite (validMethod_check _ Hvalid).
  by destruct lastEvaluatedKey.
Qed.

Lemma autoPaginate_last parameters method aggregatedResults
    lastEvaluatedKey results pages :
  validMethod method →
  LastEvaluatedKey results = None →
  _autoPaginate parameters method aggregatedResults lastEvaluatedKey
                (results :: pages) =
  ([Call method {| params := parameters;
                   ExclusiveStartKey := lastEvaluatedKey |};
    Reply results],
   Fulfilled (accumulate aggregatedResults results)).
Proof.
  intros Hvalid Hlast. simpl. rewrite (validMethod_check _ Hvalid), Hlast.
  by destruct lastEvaluatedKey.
Qed.

Lemma autoPaginate_next parameters method aggregatedResults
    lastEvaluatedKey results key pages :
  validMethod method →
  LastEvaluatedKey results = Some key →
  let rest :=
    _autoPaginate parameters method (accumulate aggregatedResults results)
                  (Some key) pages in
  _autoPaginate parameters method aggregatedResults lastEvaluatedKey
                (results :: pages) =
  (Call method {| params := parameters;
                  ExclusiveStartKey := lastEvaluatedKey |}
     :: Reply results :: rest.1,
   rest.2).
Proof.
  intros Hvalid Hnext rest. subst rest.
  cbn [_autoPaginate]. rewrite (validMethod_check _ Hvalid), Hnext.
  cbv beta iota zeta.
  destruct (_autoPaginate _ _ _ _ pages) as [trace promise].
  by destruct lastEvaluatedKey.
Qed.
End PaginationFacts.

Section PaginationClaims.
Context {Params Item Key : Type}.
Implicit Types (parameters : Params) (method : string).
Implicit Types (page results aggregatedResults : Results Item Key).
Implicit Types (pages : list (Results Item Key)).
Implicit Types (lastEvaluatedKey : option Key).

Lemma autoPaginate_head parameters method aggregatedResults
    lastEvaluatedKey pages :
  validMethod method →
  (_autoPaginate parameters method aggregatedResults lastEvaluatedKey
                 pages).1 !! 0 =
  Some (Call method {| params := parameters;
                       ExclusiveStartKey := lastEvaluatedKey |}).
Proof.
  intros Hvalid. destruct pages as [|results pages].
  - by rewrite autoPaginate_pending.
  - destruct (LastEvaluatedKey results) as [key|] eqn:Hkey.
    + by rewrite (autoPaginate_next _ _ _ _ _ key).
    + by rewrite autoPaginate_last.
Qed.

Lemma autoPaginate_accumulates parameters method :
  validMethod method →
  ∀ init last aggregatedResults lastEvaluatedKey,
    Forall (λ page, is_Some (LastEvaluatedKey page)) init →
    LastEvaluatedKey last = None →
    (_autoPaginate parameters method aggregatedResults lastEvaluatedKey
                   (init ++ [last])).2 =
    Fulfilled
      {| Count := Count aggregatedResults + sumZ (Count <$> init ++ [last]);
         ScannedCount :=
           ScannedCount aggregatedResults
           + sumZ (ScannedCount <$> init ++ [last]);
         Items := Items aggregatedResults ++ concat (Items <$> init ++ [last]);
         LastEvaluatedKey := LastEvaluatedKey aggregatedResults |}.
Proof.
  intros Hvalid init last.
  induction init as [|page init IH]; intros agg lek Hinit Hlast.
  - simpl app. rewrite autoPaginate_last by done.
    unfold accumulate. simpl. rewrite !Z.add_0_r, app_nil_r. done.
  - apply Forall_cons in Hinit as [[key Hkey] Hinit].
    simpl app. rewrite (autoPaginate_next _ _ _ _ _ key) by done.
    cbv zeta. cbn [snd]. rewrite IH by done.
    unfold accumulate. simpl. f_equal. f_equal.
    + by rewrite Z.add_assoc.
    + by rewrite Z.add_assoc.
    + by rewrite app_assoc.
Qed.

(** C2. Against a sequence of page responses that ends with the response
    carrying no [LastEvaluatedKey] (the responses before it carry one, or
    the run had ended there), [_autoPaginate], started as
    [queryTableWithAutoPagination] and [scanTableWithAutoPagination] start
    it (accumulator [{Count: 0, ScannedCount: 0, Items: []}], no start
    key), is fulfilled with the aggregate whose [Items] is the
    concatenation of the pages' [Items] in page order and whose [Count]
    and [ScannedCount] are the sums of the pages'. *)
Theorem autoPaginate_aggregate parameters method init last :
  validMethod method →
  Forall (λ page, is_Some (LastEvaluatedKey page)) init →
  LastEvaluatedKey last = None →
  (_autoPaginate parameters method emptyResults None (init ++ [last])).2 =
  Fulfilled (totals (init ++ [last])).
Proof.
  intros Hvalid Hinit Hlast.
  rewrite autoPaginate_accumulates by done.
  unfold totals. simpl. do 2 f_equal; lia.
Qed.

(** C7. When some response of the page sequence has no [LastEvaluatedKey],
    [_autoPaginate] returns: with [n] the index of the first such
    response, the promise is fulfilled, the trace has exactly [n + 1]
    calls and [n + 1] answers and ends with answer [n], and an answer
    of the trace is followed by another call exactly when it carries a
    [LastEvaluatedKey]. *)
Theorem autoPaginate_terminates parameters method aggregatedResults
    lastEvaluatedKey pages :
  validMethod method →
  Exists (λ page, LastEvaluatedKey page = None) pages →
  ∃ n last result,
    pages !! n = Some last ∧
    LastEvaluatedKey last = None ∧
    (∀ i page,
       i < n → pages !! i = Some page → is_Some (LastEvaluatedKey page)) ∧
    let run :=
      _autoPaginate parameters method aggregatedResults lastEvaluatedKey
                    pages in
    run.2 = Fulfilled result ∧
    length run.1 = 2 * S n ∧
    run.1 !! (2 * n + 1) = Some (Reply last) ∧
    (∀ i, i ≤ n → run.1 !! (2 * i + 1) = Reply <$> pages !! i) ∧
    (∀ i results,
       run.1 !! (2 * i + 1) = Some (Reply results) →
       is_Some (LastEvaluatedKey results) ↔
       ∃ queryParams, run.1 !! (2 * i + 2) = Some (Call method queryParams)).
Proof.
  intros Hvalid Hsome. revert aggregatedResults lastEvaluatedKey.
  induction pages as [|page pages IH]; intros agg lek.
  { by apply Exists_nil in Hsome. }
  destruct (LastEvaluatedKey page) as [key|] eqn:Hkey.
  - apply Exists_cons in Hsome as [Hhere|Hlater]; [congruence|].
    destruct (IH Hlater (accumulate agg page) (Some key))
      as (n & last & result & Hn & Hlast & Hbefore & Hrun).
    cbv zeta in Hrun.
    destruct Hrun as (Hres & Hlen & Hend & Hreplies & Hiff).
    exists (S n), last, result.
    split; [done|]. split; [done|]. split.
    { intros [|i] p Hi Hp; simplify_eq/=; [by eexists|].
      eapply Hbefore; [|done]. lia. }
    cbv zeta. rewrite (autoPaginate_next _ _ _ _ _ key) by done.
    cbv zeta. cbn [fst snd].
    split; [done|]. split; [simpl; lia|]. split.
    { replace (2 * S n + 1) with (S (S (2 * n + 1))) by lia. done. }
    split.
    { intros [|i] Hi; [done|].
      replace (2 * S i + 1) with (S (S (2 * i + 1))) by lia.
      simpl. apply Hreplies. lia. }
    intros [|i] results.
    + simpl. intros [= <-]. split; [|by eexists].
      intros _. rewrite autoPaginate_head by done. by eexists.
    + replace (2 * S i + 1) with (S (S (2 * i + 1))) by lia.
      replace (2 * S i + 2) with (S (S (2 * i + 2))) by lia.
      simpl. apply Hiff.
  - exists 0, page, (accumulate agg page).
    split; [done|]. split; [done|]. split; [intros; lia|].
    cbv zeta. rewrite autoPaginate_last by done. cbn [fst snd].
    split; [done|]. split; [done|]. split; [done|]. split.
    { intros i Hi. by replace i with 0 by lia. }
    intros [|i] results.
    + simpl. intros [= <-]. rewrite Hkey. split.
      * by intros [? ?].
      * by intros [? ?].
    + replace (2 * S i + 1) with (S (S (2 * i + 1))) by lia.
      simpl. done.
Qed.

(** C8. Auto-pagination is strictly sequential.  In the trace of every
    run of [_autoPaginate] calls and answers alternate, starting with a
    call, so that call [n + 1] comes directly after the answer to call
    [n]; that answer is page [n] of the sequence, its [LastEvaluatedKey]
    is the [ExclusiveStartKey] of call [n + 1], and every call carries
    the method and the parameters of the first one. *)
Theorem autoPaginate_sequential parameters method aggregatedResults
    lastEvaluatedKey pages :
  let trace :=
    (_autoPaginate parameters method aggregatedResults lastEvaluatedKey
                   pages).1 in
  (∀ i e,
     trace !! i = Some e →
     if Nat.even i
     then ∃ queryParams,
            e = Call method queryParams ∧ params queryParams = parameters
     else ∃ results, e = Reply results) ∧
  (∀ queryParams m,
     trace !! 0 = Some (Call m queryParams) →
     ExclusiveStartKey queryParams = lastEvaluatedKey) ∧
  (∀ n m queryParams,
     trace !! (2 * S n) = Some (Call m queryParams) →
     ∃ results key,
       trace !! (2 * n + 1) = Some (Reply results) ∧
       pages !! n = Some results ∧
       LastEvaluatedKey results = Some key ∧
       ExclusiveStartKey queryParams = Some key).
Proof.
  cbv zeta.
  destruct (decide (validMethod method)) as [Hvalid|Hinvalid]; cycle 1.
  { rewrite autoPaginate_invalid by done. by repeat split. }
  revert aggregatedResults lastEvaluatedKey.
  induction pages as [|page pages IH]; intros agg lek.
  { rewrite autoPaginate_pending by done. cbn [fst].
    split; [|split].
    - intros [|i] e He; simplify_eq/=. by eexists.
    - by intros q m [= <- <-].
    - intros n m q He.
      by replace (2 * S n) with (S (S (2 * n))) in He by lia. }
  destruct (LastEvaluatedKey page) as [key|] eqn:Hkey.
  - rewrite (autoPaginate_next _ _ _ _ _ key) by done.
    cbv zeta. cbn [fst].
    destruct (IH (accumulate agg page) (Some key))
      as (Halt & Hfirst & Hnext).
    split; [|split].
    + intros [|[|i]] e He; simplify_eq/=; [by eexists..|].
      by apply Halt.
    + by intros q m [= <- <-].
    + intros [|n] m q He.
      * simpl in He. exists page, key. repeat split; [done..|].
        by eapply Hfirst.
      * replace (2 * S (S n)) with (S (S (2 * S n))) in He by lia.
        simpl in He.
        destruct (Hnext n m q He) as (r & k & Hr & Hp & Hk & Hq).
        exists r, k.
        replace (2 * S n + 1) with (S (S (2 * n + 1))) by lia.
        done.
  - rewrite autoPaginate_last by done. cbn [fst].
    split; [|split].
    + intros [|[|i]] e He; simplify_eq/=; by eexists.
    + by intros q m [= <- <-].
    + intros n m q He.
      by replace (2 * S n) with (S (S (2 * n))) in He by lia.
Qed.
End PaginationClaims.

Lemma withAutoPagination_accumulates {Item Key : Type}
    (describeTable : string → list KeySchemaElement) (tableName : string)
    (primaryKeyValue : jsval) (sortKeyValueOrKeyCondition : SortKeyArg)
    (filters : FiltersArg) (init : list (Results Item Key)) last :
  Forall (λ page, is_Some (LastEvaluatedKey page)) init →
  LastEvaluatedKey last = None →
  (¬ threw (queryParamsFor describeTable tableName primaryKeyValue
                           sortKeyValueOrKeyCondition) →
   (queryTableWithAutoPagination (Item:=Item) (Key:=Key) describeTable
      tableName primaryKeyValue sortKeyValueOrKeyCondition
      (init ++ [last])).2 = Fulfilled (totals (init ++ [last]))) ∧
  (¬ threw (_constructScanParams tableName filters) →
   (scanTableWithAutoPagination (Item:=Item) (Key:=Key) tableName filters
      (init ++ [last])).2 = Fulfilled (totals (init ++ [last]))).
Proof.
  intros Hinit Hlast.
  unfold queryTableWithAutoPagination, scanTableWithAutoPagination.
  split; intros Hok.
  - destruct (queryParamsFor _ _ _ _) as [queryParams|]; [|by destruct Hok].
    rewrite autoPaginate_accumulates by (done || by right).
    unfold totals. simpl. do 2 f_equal; lia.
  - destruct (_constructScanParams _ _) as [scanParams|]; [|by destruct Hok].
    rewrite autoPaginate_accumulates by (done || by left).
    unfold totals. simpl. do 2 f_equal; lia.
Qed.

(** ** Strings *)

Section StringFacts.
Local Open Scope string_scope.

Lemma string_app_assoc (a b c : string) : (a ++ b) ++ c = a ++ (b ++ c).
Proof.
  induction a as [|x a IH]; [done|].
  change (String x ((a ++ b) ++ c) = String x (a ++ (b ++ c))).
  by rewrite IH.
Qed.

Lemma string_length_app (a b : string) :
  String.length (a ++ b) = String.length a + String.length b.
Proof.
  induction a as [|x a IH]; [done|].
  change (S (String.length (a ++ b)) = S (String.length a + String.length b)).
  by rewrite IH.
Qed.

Lemma includes_In (array : list string) (x : string) :
  includes array x = true ↔ In x array.
Proof.
  unfold includes. rewrite existsb_exists. split.
  - intros (y & Hin & Heq). apply String.eqb_eq in Heq. by subst.
  - intros Hin. exists x. split; [done|]. apply String.eqb_refl.
Qed.

Lemma includes_not_In (array : list string) (x : string) :
  includes array x = false ↔ ¬ In x array.
Proof. rewrite <- includes_In. by destruct (includes array x). Qed.
End StringFacts.

(** ** Key conditions *)

Section QueryFacts.
Local Open Scope string_scope.
Import QueryParams.

(** C4. For a sort-key condition given as an object,
    [_constructQueryParams] throws if and only if the operation of the
    condition, ['='] when it is absent, is none of ['='], ['>'], ['>='],
    ['<'], ['<='], ['between'], ['begins_with']. *)
Theorem constructQueryParams_throws (tableName : string)
    (primaryKey : option string) (primaryKeyValue : jsval)
    (sortKey : option string) (condition : KeyCondition.t) :
  threw (_constructQueryParams tableName primaryKey primaryKeyValue sortKey
                               (SortKeyObject condition))
  ↔ ¬ In (default "=" (KeyCondition.operation condition))
         ["="; ">"; ">="; "<"; "<="; "between"; "begins_with"].
Proof.
  unfold _constructQueryParams. cbn [truthy]. cbv zeta.
  change ["="; ">"; ">="; "<"; "<="; "between"; "begins_with"]
    with keyOperations.
  destruct (includes keyOperations _) eqn:Hvalid; cbn [negb].
  - apply includes_In in Hvalid. split; [|done].
    repeat case_match; simpl; done.
  - apply includes_not_In in Hvalid. by split.
Qed.
End QueryFacts.

Section QueryExpressionFacts.
Local Open Scope string_scope.
Import QueryParams.

(** C5. For an allow-listed operation [_constructQueryParams] returns the
    parameters for the table whose [KeyConditionExpression] is
    [<pk> = :pkvalue] followed by [ and begins_with(<sk>, :skvalue)] for
    ['begins_with'], by [ and <sk> between :skvalue1 and :skvalue2 ] for
    ['between'] and by [ and <sk> <op> :skvalue] for a comparison
    operator, and whose [ExpressionAttributeValues] binds [:pkvalue] to
    the primary-key value and each placeholder of the sort-key condition
    to the value supplied for it. *)
Theorem constructQueryParams_expression (tableName : string)
    (primaryKey : string) (primaryKeyValue : jsval) (sortKey : string)
    (condition : KeyCondition.t) :
  let operation := default "=" (KeyCondition.operation condition) in
  let constructed :=
    _constructQueryParams tableName (Some primaryKey) primaryKeyValue
                          (Some sortKey) (SortKeyObject condition) in
  (operation = "begins_with" →
   constructed =
   Ok {| TableName := tableName;
         KeyConditionExpression :=
           primaryKey ++ " = :pkvalue and begins_with(" ++ sortKey
                      ++ ", :skvalue)";
         ExpressionAttributeValues :=
           <[":skvalue" := KeyCondition.value condition]>
             {[ ":pkvalue" := primaryKeyValue ]} |}) ∧
  (operation = "between" →
   constructed =
   Ok {| TableName := tableName;
         KeyConditionExpression :=
           primaryKey ++ " = :pkvalue and " ++ sortKey
                      ++ " between :skvalue1 and :skvalue2 ";
         ExpressionAttributeValues :=
           <[":skvalue2" := KeyCondition.value2 condition]>
             (<[":skvalue1" := KeyCondition.value1 condition]>
                {[ ":pkvalue" := primaryKeyValue ]}) |}) ∧
  (In operation ["="; ">"; ">="; "<"; "<="] →
   constructed =
   Ok {| TableName := tableName;
         KeyConditionExpression :=
           primaryKey ++ " = :pkvalue and " ++ sortKey ++ " " ++ operation
                      ++ " :skvalue";
         ExpressionAttributeValues :=
           <[":skvalue" := KeyCondition.value condition]>
             {[ ":pkvalue" := primaryKeyValue ]} |}).
Proof.
  cbv zeta. unfold _constructQueryParams. cbn [truthy]. cbv zeta.
  unfold appendKeyCondition, setValue. cbn [interp].
  cbn [TableName KeyConditionExpression ExpressionAttributeValues].
  rewrite !string_app_assoc.
  split; [|split].
  - by intros ->.
  - by intros ->.
  - intros Hop. simpl in Hop.
    destruct Hop as [<-|[<-|[<-|[<-|[<-|[]]]]]]; reflexivity.
Qed.

(** C9. For a non-empty string as [sortKeyValueOrKeyCondition],
    [queryTable] and [queryTableWithAutoPagination] query with the
    condition [<pk> = :pkvalue and begins_with(<sk>, :skvalue)], where
    [:skvalue] is bound to the string; this is not the equality
    condition [<pk> = :pkvalue and <sk> = :skvalue]. *)
Theorem queryTable_string_sort_key {Item Key : Type}
    (describeTable : string → list KeySchemaElement)
    (tableName : string) (primaryKeyValue : jsval) (s : string)
    (pages : list (Results Item Key)) :
  s ≠ "" →
  let schema := _getTableKeySchema describeTable tableName in
  let primaryKey := interp (schema !! "HASH") in
  let sortKey := interp (schema !! "RANGE") in
  let expected :=
    {| TableName := tableName;
       KeyConditionExpression :=
         primaryKey ++ " = :pkvalue and begins_with(" ++ sortKey
                    ++ ", :skvalue)";
       ExpressionAttributeValues :=
         <[":skvalue" := JStr s]> {[ ":pkvalue" := primaryKeyValue ]} |} in
  queryTable describeTable tableName primaryKeyValue (SortKeyString s) pages
  = callOnce "query" expected pages ∧
  queryTableWithAutoPagination describeTable tableName primaryKeyValue
                               (SortKeyString s) pages
  = _autoPaginate expected "query" emptyResults None pages ∧
  KeyConditionExpression expected
  ≠ primaryKey ++ " = :pkvalue and " ++ sortKey ++ " = :skvalue".
Proof.
  intros Hs. cbv zeta.
  assert (queryParamsFor describeTable tableName primaryKeyValue
                         (SortKeyString s) = Ok
    {| TableName := tableName;
       KeyConditionExpression :=
         interp (_getTableKeySchema describeTable tableName !! "HASH")
           ++ " = :pkvalue and begins_with("
           ++ interp (_getTableKeySchema describeTable tableName !! "RANGE")
           ++ ", :skvalue)";
       ExpressionAttributeValues :=
         <[":skvalue" := JStr s]> {[ ":pkvalue" := primaryKeyValue ]} |})
    as Hparams.
  { unfold queryParamsFor, _constructQueryParams. cbn [truthy].
    apply String.eqb_neq in Hs. rewrite Hs. cbn [negb]. cbv zeta.
    unfold appendKeyCondition, setValue.
    cbn [TableName KeyConditionExpression ExpressionAttributeValues].
    by rewrite string_app_assoc. }
  unfold queryTable, queryTableWithAutoPagination. rewrite Hparams.
  split; [done|]. split; [done|].
  cbn [KeyConditionExpression]. intros Heq.
  apply (inj (String.app _)) in Heq.
  apply (f_equal String.length) in Heq.
  rewrite !string_length_app in Heq. simpl in Heq. lia.
Qed.
End QueryExpressionFacts.

(** ** Filters *)

Section FilterFacts.
Import FilterQuery.

Lemma buildFilterQuery_Ok (filter : Filter.t) :
  In (default "=" (Filter.operation filter)) filterOperations →
  ∃ query, _buildFilterQuery filter = Ok query.
Proof.
  intros Hvalid. apply includes_In in Hvalid.
  unfold _buildFilterQuery. cbv zeta. rewrite Hvalid. cbn [negb].
  repeat case_match; by eexists.
Qed.

Lemma buildFilterQuery_Throw (filter : Filter.t) :
  ¬ In (default "=" (Filter.operation filter)) filterOperations →
  _buildFilterQuery filter =
  Throw (invalidOperation (default "=" (Filter.operation filter))).
Proof.
  intros Hinvalid. apply includes_not_In in Hinvalid.
  unfold _buildFilterQuery. cbv zeta. by rewrite Hinvalid.
Qed.

(** C3. [_buildFilterQuery] throws if and only if the operation of the
    filter, ['='] when it is absent, is none of ['='], ['!='], ['>'],
    ['>='], ['<'], ['<='], ['between'], ['exists'], ['not exists'],
    ['contains'], ['not contains'], ['begins_with']; for each of these
    operations it returns an expression. *)
Theorem buildFilterQuery_throws (filter : Filter.t) :
  let operation := default "=" (Filter.operation filter) in
  let allowed :=
    ["="; "!="; ">"; ">="; "<"; "<="; "between"; "exists"; "not exists";
     "contains"; "not contains"; "begins_with"] in
  (threw (_buildFilterQuery filter) ↔ ¬ In operation allowed) ∧
  (In operation allowed → ∃ query, _buildFilterQuery filter = Ok query).
Proof.
  cbv zeta. change [ "="; "!="; ">"; ">="; "<"; "<="; "between"; "exists";
                     "not exists"; "contains"; "not contains";
                     "begins_with" ] with filterOperations.
  split; [|apply buildFilterQuery_Ok].
  destruct (includes filterOperations
              (default "=" (Filter.operation filter))) eqn:Hvalid.
  - apply includes_In in Hvalid.
    destruct (buildFilterQuery_Ok filter Hvalid) as [query ->].
    by split.
  - apply includes_not_In in Hvalid.
    rewrite buildFilterQuery_Throw by done. by split.
Qed.

Lemma joinAnd_snoc (expressions : list string) (e : string) :
  expressions ≠ [] →
  joinAnd (expressions ++ [e]) = joinAnd expressions +:+ " and " +:+ e.
Proof.
  unfold joinAnd.
  induction expressions as [|a [|b l] IH]; intros Hne; [done|done|].
  change (a +:+ " and " +:+ String.concat " and " ((b :: l) ++ [e]) =
          (a +:+ " and " +:+ String.concat " and " (b :: l))
            +:+ " and " +:+ e).
  rewrite IH by done. by rewrite !string_app_assoc.
Qed.

Lemma unionOfBindings_snoc (queries : list FilterQuery.t) query :
  unionOfBindings (queries ++ [query]) =
  expressionAttributeValues query ∪ unionOfBindings queries.
Proof.
  unfold unionOfBindings. by rewrite fmap_app, reverse_app.
Qed.

Lemma unionOfBindings_lookup_Some (queries : list FilterQuery.t) k v :
  unionOfBindings queries !! k = Some v →
  ∃ query, query ∈ queries ∧ expressionAttributeValues query !! k = Some v.
Proof.
  induction queries as [|query queries IH] using rev_ind; [done|].
  rewrite unionOfBindings_snoc, lookup_union_Some_raw.
  intros [Hnew|[_ Hold]].
  - exists query. split; [|done]. apply elem_of_app. right. by left.
  - destruct (IH Hold) as (earlier & Hin & Hlook).
    exists earlier. split; [|done]. apply elem_of_app. by left.
Qed.

Lemma unionOfBindings_is_Some (queries : list FilterQuery.t) query k :
  query ∈ queries →
  is_Some (expressionAttributeValues query !! k) →
  is_Some (unionOfBindings queries !! k).
Proof.
  induction queries as [|latest queries IH] using rev_ind;
    [by intros ?%elem_of_nil|].
  rewrite unionOfBindings_snoc, lookup_union_is_Some.
  intros [Hin|Hin%list_elem_of_singleton]%elem_of_app Hbound.
  - right. by apply IH.
  - left. by subst.
Qed.

Lemma addFilter_first (filter : Filter.t) query (params : ScanParams.t) :
  _buildFilterQuery filter = Ok query →
  addFilter filter 0 params =
  Ok {| ScanParams.TableName := ScanParams.TableName params;
        ScanParams.FilterExpression := Some (expression query);
        ScanParams.ExpressionAttributeValues :=
          Some (expressionAttributeValues query) |}.
Proof. intros Hquery. unfold addFilter. by rewrite Hquery. Qed.

Lemma addFilter_next (filter : Filter.t) query (i : nat)
    (params : ScanParams.t) :
  _buildFilterQuery filter = Ok query →
  0 < i →
  addFilter filter i params =
  Ok {| ScanParams.TableName := ScanParams.TableName params;
        ScanParams.FilterExpression :=
          Some (interp (ScanParams.FilterExpression params)
                  +:+ " and " +:+ expression query);
        ScanParams.ExpressionAttributeValues :=
          Some (spread (ScanParams.ExpressionAttributeValues params)
                       (expressionAttributeValues query)) |}.
Proof.
  intros Hquery Hi. unfold addFilter. rewrite Hquery. cbn [mbind result_bind].
  by destruct (Nat.ltb_spec 0 i) as [_|?]; [|lia].
Qed.

Lemma forEachFrom_addFilter (filters : list Filter.t) :
  ∀ (queries previous : list FilterQuery.t) (i : nat) (tableName : string),
    0 < i → previous ≠ [] →
    Forall2 (λ filter query, _buildFilterQuery filter = Ok query)
            filters queries →
    forEachFrom addFilter i filters
      {| ScanParams.TableName := tableName;
         ScanParams.FilterExpression :=
           Some (joinAnd (expression <$> previous));
         ScanParams.ExpressionAttributeValues :=
           Some (unionOfBindings previous) |} =
    Ok {| ScanParams.TableName := tableName;
          ScanParams.FilterExpression :=
            Some (joinAnd (expression <$> previous ++ queries));
          ScanParams.ExpressionAttributeValues :=
            Some (unionOfBindings (previous ++ queries)) |}.
Proof.
  induction filters as [|filter filters IH];
    intros queries previous i tableName Hi Hprevious Hqueries.
  - apply Forall2_nil_inv_l in Hqueries as ->. by rewrite app_nil_r.
  - apply Forall2_cons_inv_l in Hqueries
      as (query & queries' & Hquery & Hqueries & ->).
    cbn [forEachFrom]. rewrite (addFilter_next _ query) by done.
    cbn [mbind result_bind].
    cbn [ScanParams.TableName ScanParams.FilterExpression
         ScanParams.ExpressionAttributeValues interp].
    unfold spread. cbn [from_option id].
    rewrite <- unionOfBindings_snoc.
    replace (joinAnd (expression <$> previous) +:+ " and "
               +:+ expression query)
      with (joinAnd (expression <$> previous ++ [query])).
    2:{ rewrite fmap_app. apply joinAnd_snoc. by destruct previous. }
    rewrite (cons_middle query previous queries'), app_assoc.
    apply IH; [lia| |done].
    by destruct previous.
Qed.

(** What [_constructScanParams] returns for a non-empty list of filters
    whose operations are all allow-listed: the [FilterExpression] is the
    expressions of the individual filters joined by [ and ] in list order;
    the [ExpressionAttributeValues] merges the bindings of the individual
    filters with the later filter winning.  Each of its bindings is a
    binding of one of the filters and it binds every placeholder that one
    of the filters binds, but a binding of an earlier filter is lost when a
    later filter binds the same placeholder. *)
Theorem constructScanParams_filters (tableName : string)
    (filters : list Filter.t) :
  filters ≠ [] →
  Forall (λ filter,
            In (default "=" (Filter.operation filter))
               ["="; "!="; ">"; ">="; "<"; "<="; "between"; "exists";
                "not exists"; "contains"; "not contains"; "begins_with"])
         filters →
  ∃ queries,
    Forall2 (λ filter query, _buildFilterQuery filter = Ok query)
            filters queries ∧
    _constructScanParams tableName (FiltersArray filters) =
    Ok {| ScanParams.TableName := tableName;
          ScanParams.FilterExpression :=
            Some (joinAnd (expression <$> queries));
          ScanParams.ExpressionAttributeValues :=
            Some (unionOfBindings queries) |} ∧
    (∀ k v,
       unionOfBindings queries !! k = Some v →
       ∃ query,
         query ∈ queries ∧ expressionAttributeValues query !! k = Some v) ∧
    (∀ query k,
       query ∈ queries →
       is_Some (expressionAttributeValues query !! k) →
       is_Some (unionOfBindings queries !! k)).
Proof.
  intros Hne Hvalid.
  assert (∃ queries,
            Forall2 (λ filter query, _buildFilterQuery filter = Ok query)
                    filters queries) as [queries Hqueries].
  { clear Hne. induction Hvalid as [|filter filters Hop _ [queries IH]].
    - by exists [].
    - destruct (buildFilterQuery_Ok filter Hop) as [query Hquery].
      exists (query :: queries). by constructor. }
  exists queries. split; [done|].
  split; [|split;
           [apply unionOfBindings_lookup_Some|apply unionOfBindings_is_Some]].
  destruct Hqueries as [|filter query filters queries Hquery Hqueries];
    [done|].
  unfold _constructScanParams, forEach. cbn [forEachFrom].
  rewrite (addFilter_first _ query) by done.
  cbn [mbind result_bind ScanParams.TableName].
  pose proof (forEachFrom_addFilter filters queries [query] 1 tableName)
    as Hrest.
  unfold unionOfBindings at 1 in Hrest. simpl in Hrest.
  rewrite (right_id_L ∅ (∪)) in Hrest.
  apply Hrest; [lia|done|done].
Qed.

(** C6. [ExpressionAttributeValues] is not the union of the bindings of
    every filter where two filters bind the same placeholder.  For the
    filters [age > 18] and [age < 65] on table [T]
    the first filter binds [:ageValue] to [18] and the second to [65];
    [_constructScanParams] returns the expression
    [age > :ageValue and age < :ageValue], in which both filters read
    [:ageValue], and binds [:ageValue] to [65] only: the binding of the
    first filter is not in the result. *)
Theorem constructScanParams_collision :
  ∃ query1 query2 parameters values,
    _buildFilterQuery olderThan18 = Ok query1 ∧
    _buildFilterQuery youngerThan65 = Ok query2 ∧
    expressionAttributeValues query1 !! ":ageValue" = Some (JNum 18) ∧
    expressionAttributeValues query2 !! ":ageValue" = Some (JNum 65) ∧
    _constructScanParams "T" (FiltersArray [olderThan18; youngerThan65])
    = Ok parameters ∧
    ScanParams.FilterExpression parameters
    = Some "age > :ageValue and age < :ageValue" ∧
    ScanParams.ExpressionAttributeValues parameters = Some values ∧
    values = {[ ":ageValue" := JNum 65 ]} ∧
    values !! ":ageValue" ≠ expressionAttributeValues query1 !! ":ageValue".
Proof.
  eexists _, _, _, _.
  split; [reflexivity|]. split; [reflexivity|].
  split; [reflexivity|]. split; [reflexivity|].
  split; [reflexivity|]. split; [reflexivity|].
  split; [reflexivity|]. split; [reflexivity|].
  vm_compute. discriminate.
Qed.
End FilterFacts.

(** * The properties on the sample inputs *)

Section SampleRuns.
Import BatchWrite.

Example chunkRequests_51 :
  chunksOf <$> (match chunkRequests (seq 0 51) with
                | Ok map => Some map
                | Throw _ => None
                end) =
  Some [Some (seq 0 25); Some (seq 25 25); Some [50]].
Proof. vm_compute. reflexivity. Qed.

Example chunkRequests_25 :
  chunksOf <$> (match chunkRequests (seq 0 25) with
                | Ok map => Some map
                | Throw _ => None
                end) =
  Some [Some (seq 0 25)].
Proof. vm_compute. reflexivity. Qed.

Example batchWrite_26_calls :
  snd <$> (match batchWrite (seq 0 26) "T"
                   [ {| err := None; data := Some {| UnprocessedItems := ∅ |} |};
                     {| err := None; data := Some {| UnprocessedItems := ∅ |} |} ]
           with
           | Ok run => Some run
           | Throw _ => None
           end) =
  Some [ {| RequestItems := {[ "T" := Some (seq 0 25) ]} |};
         {| RequestItems := {[ "T" := Some [25] ]} |} ].
Proof. vm_compute. reflexivity. Qed.

Example buildFilterQuery_unknown :
  _buildFilterQuery
    (Filter.mk (Some "age") (Some "like") (JNum 1) JUndefined JUndefined) =
  Throw (invalidOperation "like").
Proof. reflexivity. Qed.

Example constructScanParams_sample :
  _constructScanParams "T" (FiltersArray sampleFilters) =
  Ok {| ScanParams.TableName := "T";
        ScanParams.FilterExpression :=
          Some ("age > :ageValue and not contains(name, :nameValue)"
                  +:+ " and age between :ageValue1 and :ageValue2");
        ScanParams.ExpressionAttributeValues :=
          Some (<[":ageValue" := JNum 18]>
                  (<[":nameValue" := JStr "A"]>
                     (<[":ageValue1" := JNum 1]>
                        {[ ":ageValue2" := JNum 2 ]}))) |}.
Proof. vm_compute. reflexivity. Qed.

Example constructQueryParams_default_operation :
  _constructQueryParams "T" (Some "id") (JStr "a") (Some "ts")
    (SortKeyObject (KeyCondition.mk None (JNum 7) JUndefined JUndefined)) =
  Ok {| QueryParams.TableName := "T";
        QueryParams.KeyConditionExpression :=
          "id = :pkvalue and ts = :skvalue";
        QueryParams.ExpressionAttributeValues :=
          <[":skvalue" := JNum 7]> {[ ":pkvalue" := JStr "a" ]} |}.
Proof. vm_compute. reflexivity. Qed.

Example constructQueryParams_empty_string :
  _constructQueryParams "T" (Some "id") (JStr "a") (Some "ts")
    (SortKeyString "") =
  Ok {| QueryParams.TableName := "T";
        QueryParams.KeyConditionExpression := "id = :pkvalue";
        QueryParams.ExpressionAttributeValues :=
          {[ ":pkvalue" := JStr "a" ]} |}.
Proof. vm_compute. reflexivity. Qed.

Example scanTableWithAutoPagination_sample :
  (scanTableWithAutoPagination "T" FiltersUndefined
     [samplePage1; samplePage2; samplePage3]).2 =
  Fulfilled {| Count := 6; ScannedCount := 14;
               Items := [10; 11; 12; 13; 14; 15];
               LastEvaluatedKey := None |}.
Proof. reflexivity. Qed.

(** The run stops at the first page without a [LastEvaluatedKey]: a
    script that goes on after it is not read further. *)
Example autoPaginate_stops_early :
  _autoPaginate tt "scan" emptyResults None
    [samplePage3; samplePage1] =
  ([Call "scan" {| params := tt; ExclusiveStartKey := None |};
    Reply samplePage3],
   Fulfilled {| Count := 3; ScannedCount := 4; Items := [13; 14; 15];
                LastEvaluatedKey := None |}).
Proof. reflexivity. Qed.

Lemma autoPaginate_aggregate_witness :
  (_autoPaginate tt "query" emptyResults None
     ([samplePage1; samplePage2] ++ [samplePage3])).2 =
  Fulfilled (totals ([samplePage1; samplePage2] ++ [samplePage3])).
Proof.
  apply (autoPaginate_aggregate tt "query" [samplePage1; samplePage2]
                                samplePage3).
  - right. reflexivity.
  - repeat constructor; eexists; reflexivity.
  - reflexivity.
Defined.

Lemma autoPaginate_terminates_witness :
  ∃ n last result,
    [samplePage1; samplePage2; samplePage3] !! n = Some last ∧
    LastEvaluatedKey last = None ∧
    (∀ i page,
       i < n → [samplePage1; samplePage2; samplePage3] !! i = Some page →
       is_Some (LastEvaluatedKey page)) ∧
    let run :=
      _autoPaginate tt "scan" emptyResults None
                    [samplePage1; samplePage2; samplePage3] in
    run.2 = Fulfilled result ∧
    length run.1 = 2 * S n ∧
    run.1 !! (2 * n + 1) = Some (Reply last) ∧
    (∀ i, i ≤ n →
       run.1 !! (2 * i + 1) =
       Reply <$> [samplePage1; samplePage2; samplePage3] !! i) ∧
    (∀ i results,
       run.1 !! (2 * i + 1) = Some (Reply results) →
       is_Some (LastEvaluatedKey results) ↔
       ∃ queryParams, run.1 !! (2 * i + 2) = Some (Call "scan" queryParams)).
Proof.
  apply (autoPaginate_terminates tt "scan" emptyResults None
           [samplePage1; samplePage2; samplePage3]).
  - left. reflexivity.
  - do 2 apply Exists_cons_tl. apply Exists_cons_hd. reflexivity.
Defined.

Lemma queryTable_string_sort_key_witness :
  queryTable sampleSchema "T" (JStr "a") (SortKeyString "2020")
             [samplePage3]
  = callOnce "query"
      {| QueryParams.TableName := "T";
         QueryParams.KeyConditionExpression :=
           "id = :pkvalue and begins_with(ts, :skvalue)";
         QueryParams.ExpressionAttributeValues :=
           <[":skvalue" := JStr "2020"]> {[ ":pkvalue" := JStr "a" ]} |}
      [samplePage3].
Proof.
  apply (queryTable_string_sort_key sampleSchema "T" (JStr "a") "2020"
                                    [samplePage3]).
  discriminate.
Defined.

Lemma constructScanParams_filters_witness :
  ∃ queries,
    Forall2 (λ filter query, _buildFilterQuery filter = Ok query)
            sampleFilters queries ∧
    _constructScanParams "T" (FiltersArray sampleFilters) =
    Ok {| ScanParams.TableName := "T";
          ScanParams.FilterExpression :=
            Some (joinAnd (FilterQuery.expression <$> queries));
          ScanParams.ExpressionAttributeValues :=
            Some (unionOfBindings queries) |} ∧
    (∀ k v,
       unionOfBindings queries !! k = Some v →
       ∃ query,
         query ∈ queries ∧
         FilterQuery.expressionAttributeValues query !! k = Some v) ∧
    (∀ query k,
       query ∈ queries →
       is_Some (FilterQuery.expressionAttributeValues query !! k) →
       is_Some (unionOfBindings queries !! k)).
Proof.
  apply (constructScanParams_filters "T" sampleFilters).
  - discriminate.
  - repeat constructor; simpl; tauto.
Defined.
End SampleRuns.


(** * Further properties *)

(** ** Bulk writes: the number of chunks and the calls issued *)

Section BatchFacts.
Import BatchWrite.
Context {Request : Type}.
Implicit Types (chunk open : list Request) (chunks full : list (list Request)).
Implicit Types (replies clean rest : list (BatchWriteReply Request)).
Implicit Types (reply dirty : BatchWriteReply Request).

Lemma pushRequest_tightlyChunked full open map (request : Request) i :
  tightlyChunked full open map →
  ∃ full' open' map',
    pushRequest request i map = Ok map' ∧
    tightlyChunked full' open' map' ∧
    open' ≠ [] ∧
    concat (full' ++ [open']) = concat (full ++ [open]) ++ [request].
Proof.
  intros [(-> & Hfull & Hopen) Htight]. unfold pushRequest, keysLength.
  rewrite size_map_seq, length_app.
  replace (length full + length [open] - 1) with (length full)
    by (simpl; lia).
  rewrite lookup_map_seq_0, lookup_app_r by lia.
  rewrite Nat.sub_diag.
  change ([open] !! 0) with (Some open). cbv beta iota zeta.
  destruct (25 <=? length open) eqn:Hfilled.
  - apply Nat.leb_le in Hfilled.
    exists (full ++ [open]), [request]. eexists. split; [reflexivity|].
    split; [|split; [done|by rewrite (concat_app (full ++ [open]))]].
    split; [|done]. split; [|split].
    + rewrite insert_insert_eq.
      rewrite (map_seq_snoc 0 (full ++ [open])), length_app. done.
    + apply Forall_app. split; [done|]. constructor; [lia|constructor].
    + simpl. lia.
  - apply Nat.leb_gt in Hfilled.
    exists full, (open ++ [request]). eexists. split; [reflexivity|].
    split; [|split].
    + split; [|by intros [_ [=]]%app_eq_nil]. split; [|split].
      * rewrite !map_seq_snoc. simpl. by rewrite insert_insert_eq.
      * done.
      * rewrite length_app. simpl. lia.
    + by intros [_ [=]]%app_eq_nil.
    + rewrite !concat_app. simpl. rewrite !app_nil_r.
      by rewrite app_assoc.
Qed.

Lemma forEachFrom_tightlyChunked (requests : list Request) :
  ∀ i full open map,
    tightlyChunked full open map →
    ∃ full' open' map',
      forEachFrom pushRequest i requests map = Ok map' ∧
      tightlyChunked full' open' map' ∧
      concat (full' ++ [open']) = concat (full ++ [open]) ++ requests.
Proof.
  induction requests as [|request requests IH]; intros i full open map Htight.
  - exists full, open, map. rewrite app_nil_r. by repeat split; try apply Htight.
  - destruct (pushRequest_tightlyChunked full open map request i Htight)
      as (full1 & open1 & map1 & Hpush & Htight1 & _ & Hcat1).
    destruct (IH (S i) full1 open1 map1 Htight1)
      as (full2 & open2 & map2 & Hrest & Htight2 & Hcat2).
    exists full2, open2, map2. split; [|split; [done|]].
    + simpl. rewrite Hpush. exact Hrest.
    + rewrite Hcat2, Hcat1, <- app_assoc. done.
Qed.

Lemma length_concat_full full :
  Forall (λ chunk, length chunk = 25) full →
  length (concat full) = 25 * length full.
Proof.
  induction 1 as [|chunk full Hchunk _ IH]; [done|].
  simpl. rewrite length_app, IH, Hchunk. lia.
Qed.

(** The chunk map of a request list, as a list of chunks. *)
Lemma chunkRequests_shape (requests : list Request) :
  ∃ chunks,
    chunkRequests requests = Ok (map_seq 0 chunks) ∧
    concat chunks = requests ∧
    Forall (λ chunk, length chunk ≤ 25) chunks ∧
    length chunks = Nat.max 1 ((length requests + 24) / 25) ∧
    (requests ≠ [] → Forall (λ chunk, chunk ≠ []) chunks).
Proof.
  destruct (forEachFrom_tightlyChunked requests 0 [] [] {[ 0 := [] ]})
    as (full & open & map & Hrun & [(-> & Hfull & Hopen) Htight] & Hcat).
  { split; [|done]. split; [done|]. split; [constructor|simpl; lia]. }
  simpl in Hcat. exists (full ++ [open]).
  split; [exact Hrun|]. split; [exact Hcat|]. split; [|split].
  - apply Forall_app. split.
    + eapply Forall_impl; [exact Hfull|]. simpl. intros; lia.
    + constructor; [done|constructor].
  - rewrite <- Hcat, concat_app, !length_app, length_concat_full by done.
    cbn [concat length]. rewrite app_nil_r.
    destruct open as [|request open].
    + rewrite (Htight eq_refl). reflexivity.
    + assert ((25 * length full + length (request :: open) + 24) / 25
              = length full + 1) as ->; [|lia].
      symmetry. apply (Nat.div_unique _ 25 _ (length open)).
      * simpl in Hopen. lia.
      * simpl. lia.
  - intros Hne. apply Forall_app. split.
    + eapply Forall_impl; [exact Hfull|]. simpl. by intros [|??].
    + constructor; [|constructor]. intros ->.
      rewrite (Htight eq_refl) in Hcat. by subst.
Qed.

(** X1. The chunk map of [batchWrite] has one chunk for the empty list and
    otherwise the number of requests divided by 25, rounded up; for a
    non-empty list no chunk is empty. *)
Theorem chunkRequests_count (requests : list Request) :
  ∃ map chunks,
    chunkRequests requests = Ok map ∧
    chunksOf map = Some <$> chunks ∧
    length chunks = Nat.max 1 ((length requests + 24) / 25) ∧
    (requests ≠ [] → Forall (λ chunk, chunk ≠ []) chunks).
Proof.
  destruct (chunkRequests_shape requests)
    as (chunks & Hrun & _ & _ & Hcount & Hfilled).
  exists (map_seq 0 chunks), chunks.
  split; [done|]. split; [apply chunksOf_map_seq|done].
Qed.

(** The calls of [_batchWrite] from [index] on: the chunk at [index], and
    one further chunk for each answer that reports nothing unprocessed. *)
Lemma batchWrite_from chunks (tableName : string) :
  ∀ replies index,
    index < length chunks →
    _batchWrite index (map_seq 0 chunks) tableName true replies =
    callFor tableName
      <$> take (S (cleanPrefix tableName replies)) (drop index chunks).
Proof.
  induction replies as [|reply replies IH]; intros index Hindex.
  all: destruct (lookup_lt_is_Some_2 chunks index Hindex) as [chunk Hchunk].
  all: rewrite (drop_S _ _ _ Hchunk).
  all: cbn [_batchWrite cleanPrefix]; rewrite lookup_map_seq_0, Hchunk.
  - done.
  - destruct (unprocessed tableName reply); [done|].
    unfold keysLength. rewrite size_map_seq.
    destruct (Nat.leb_spec (length chunks - 1) index) as [Hlast|Hmore].
    + rewrite (drop_ge chunks (S index)) by lia. done.
    + replace (index + 1) with (S index) by lia.
      rewrite IH by lia. done.
Qed.

Lemma cleanPrefix_all (tableName : string) replies :
  Forall (λ reply, unprocessed tableName reply = false) replies →
  cleanPrefix tableName replies = length replies.
Proof.
  induction 1 as [|reply replies Hclean _ IH]; [done|].
  simpl. by rewrite Hclean, IH.
Qed.

Lemma cleanPrefix_stop (tableName : string) clean dirty rest :
  Forall (λ reply, unprocessed tableName reply = false) clean →
  unprocessed tableName dirty = true →
  cleanPrefix tableName (clean ++ dirty :: rest) = length clean.
Proof.
  intros Hclean Hdirty.
  induction Hclean as [|reply clean Hreply _ IH]; simpl.
  - by rewrite Hdirty.
  - by rewrite Hreply, IH.
Qed.

Lemma cleanPrefix_le (tableName : string) replies :
  cleanPrefix tableName replies ≤ length replies.
Proof.
  induction replies as [|reply replies IH]; simpl; [lia|].
  destruct (unprocessed tableName reply); lia.
Qed.

Lemma batchWrite_calls (requests : list Request) (tableName : string) replies :
  ∃ chunks,
    batchWrite requests tableName replies =
    Ok (map_seq 0 chunks,
        callFor tableName
          <$> take (S (cleanPrefix tableName replies)) chunks) ∧
    concat chunks = requests ∧
    Forall (λ chunk, length chunk ≤ 25) chunks ∧
    length chunks = Nat.max 1 ((length requests + 24) / 25).
Proof.
  destruct (chunkRequests_shape requests)
    as (chunks & Hrun & Hcat & Hsize & Hcount & _).
  exists chunks. split; [|done].
  unfold batchWrite. rewrite Hrun. cbn [mbind result_bind].
  rewrite batchWrite_from by lia. done.
Qed.

(** X2. When the test [data && data.UnprocessedItems[tableName]] is falsy
    for every answer (the answer has no [data], as an answer that is only
    an error, or its [UnprocessedItems] has nothing under the table name,
    of its own or inherited) and the callbacks of all calls but the last
    run, [batchWrite] issues one call per chunk, in order: the item lists
    of the calls concatenate to the request list and none has more than 25
    items. *)
Theorem batchWrite_sends_all (requests : list Request) (tableName : string)
    replies :
  Forall (λ reply, unprocessed tableName reply = false) replies →
  (length requests + 24) / 25 ≤ S (length replies) →
  ∃ map chunks,
    batchWrite requests tableName replies =
    Ok (map, callFor tableName <$> chunks) ∧
    chunksOf map = Some <$> chunks ∧
    concat chunks = requests ∧
    Forall (λ chunk, length chunk ≤ 25) chunks.
Proof.
  intros Hclean Henough.
  destruct (batchWrite_calls requests tableName replies)
    as (chunks & Hrun & Hcat & Hsize & Hcount).
  exists (map_seq 0 chunks), chunks.
  rewrite cleanPrefix_all, take_ge in Hrun by (done || lia).
  split; [done|]. split; [apply chunksOf_map_seq|done].
Qed.

(** X3. When the test [data && data.UnprocessedItems[tableName]] is
    truthy for an answer and falsy for the answers before it, [batchWrite]
    stops there: it has issued the calls for the chunks up to the one so
    answered, and the chunks after it are not sent. *)
Theorem batchWrite_stops_at_unprocessed (requests : list Request)
    (tableName : string) clean dirty rest :
  Forall (λ reply, unprocessed tableName reply = false) clean →
  unprocessed tableName dirty = true →
  ∃ map chunks,
    batchWrite requests tableName (clean ++ dirty :: rest) =
    Ok (map, callFor tableName <$> take (S (length clean)) chunks) ∧
    chunksOf map = Some <$> chunks ∧
    concat chunks = requests.
Proof.
  intros Hclean Hdirty.
  destruct (batchWrite_calls requests tableName (clean ++ dirty :: rest))
    as (chunks & Hrun & Hcat & _).
  exists (map_seq 0 chunks), chunks.
  rewrite cleanPrefix_stop in Hrun by done.
  split; [done|]. split; [apply chunksOf_map_seq|done].
Qed.

(** X4. Whatever the service answers, the calls of [batchWrite] are the
    calls for the first [k] chunks, in order, for some [k] between 1 and
    the number of answers plus one: the first chunk is always sent, no
    chunk is sent twice or out of order, and a chunk is sent only after
    the callback of the chunk before it ran. *)
Theorem batchWrite_calls_prefix (requests : list Request) (tableName : string)
    replies :
  ∃ map chunks k,
    batchWrite requests tableName replies =
    Ok (map, callFor tableName <$> take k chunks) ∧
    chunksOf map = Some <$> chunks ∧
    concat chunks = requests ∧
    1 ≤ k ≤ S (length replies).
Proof.
  destruct (batchWrite_calls requests tableName replies)
    as (chunks & Hrun & Hcat & _).
  exists (map_seq 0 chunks), chunks, (S (cleanPrefix tableName replies)).
  split; [done|]. split; [apply chunksOf_map_seq|]. split; [done|].
  pose proof (cleanPrefix_le tableName replies). lia.
Qed.
End BatchFacts.

(** ** The key schema of a table *)

Section KeySchemaFacts.
Implicit Types (e : KeySchemaElement) (keySchema : list KeySchemaElement).
Implicit Types (map : gmap string string) (k : string).

Lemma keySchema_foldl_ne keySchema : ∀ map k,
  Forall (λ e, KeyType e ≠ k) keySchema →
  foldl (λ map e, <[KeyType e := AttributeName e]> map) map keySchema !! k
  = map !! k.
Proof.
  induction keySchema as [|e keySchema IH]; intros map k Hne; [done|].
  apply Forall_cons in Hne as [He Hne]. simpl.
  rewrite IH by done. by rewrite lookup_insert_ne.
Qed.

Lemma keySchema_foldl_is_Some keySchema : ∀ map k,
  is_Some
    (foldl (λ map e, <[KeyType e := AttributeName e]> map) map keySchema !! k)
  ↔ is_Some (map !! k) ∨ Exists (λ e, KeyType e = k) keySchema.
Proof.
  induction keySchema as [|e keySchema IH]; intros map k; simpl.
  - rewrite Exists_nil. tauto.
  - rewrite IH, Exists_cons, lookup_insert_is_Some.
    destruct (decide (KeyType e = k)); tauto.
Qed.

(** X5. [_getTableKeySchema] gives for a key type the attribute name of the
    last element of [Table.KeySchema] with that key type, and nothing
    exactly when no element has that key type. *)
Theorem getTableKeySchema_lookup
    (describeTable : string → list KeySchemaElement) (tableName k : string) :
  (_getTableKeySchema describeTable tableName !! k = None
   ↔ Forall (λ e, KeyType e ≠ k) (describeTable tableName)) ∧
  (∀ before e after,
     describeTable tableName = before ++ e :: after →
     KeyType e = k →
     Forall (λ e', KeyType e' ≠ k) after →
     _getTableKeySchema describeTable tableName !! k
     = Some (AttributeName e)).
Proof.
  unfold _getTableKeySchema. split.
  - rewrite eq_None_not_Some, keySchema_foldl_is_Some, lookup_empty.
    split.
    + intros Hnone. apply (not_Exists_Forall (λ e, KeyType e = k)).
      intros Hex. apply Hnone. by right.
    + intros Hall [[? [=]]|Hex].
      by apply (Forall_not_Exists (λ e, KeyType e = k)) in Hall.
  - intros before e after -> <- Hafter.
    rewrite foldl_app. simpl.
    rewrite keySchema_foldl_ne by done. apply lookup_insert_eq.
Qed.
End KeySchemaFacts.

(** ** Key conditions: errors and what every result has *)

Section QueryBuilderFacts.
Import QueryParams.
Implicit Types (tableName : string) (primaryKey sortKey : option string).
Implicit Types (primaryKeyValue : jsval) (arg : SortKeyArg).

(** X6. [_constructQueryParams] throws only for a condition given as an
    object whose operation is not allow-listed, and the message then is
    [Invalid operation "<operation>" used.]; for a string or an omitted
    argument it never throws. *)
Theorem constructQueryParams_Throw tableName primaryKey primaryKeyValue
    sortKey arg (message : string) :
  _constructQueryParams tableName primaryKey primaryKeyValue sortKey arg
  = Throw message
  ↔ ∃ condition,
      arg = SortKeyObject condition ∧
      ¬ In (default "=" (KeyCondition.operation condition)) keyOperations ∧
      message = invalidOperation (default "=" (KeyCondition.operation condition)).
Proof.
  unfold _constructQueryParams. destruct arg as [|s|condition]; cbn [truthy].
  - split; [done|]. by intros (? & [=] & _).
  - split; [by destruct (String.eqb s "")|]. by intros (? & [=] & _).
  - cbv zeta.
    destruct (includes keyOperations _) eqn:Hvalid; cbn [negb].
    + apply includes_In in Hvalid. split.
      * repeat case_match; done.
      * by intros (? & [= <-] & Hinvalid & _).
    + apply includes_not_In in Hvalid. split.
      * intros [= <-]. by exists condition.
      * by intros (? & [= <-] & _ & ->).
Qed.

Lemma string_app_nil_r (s : string) : s +:+ "" = s.
Proof.
  induction s as [|x s IH]; [done|].
  change (String x (s +:+ "") = String x s). by rewrite IH.
Qed.

Lemma primaryKeyCondition_extended primaryKey (suffix : string) :
  0 < String.length suffix →
  primaryKeyCondition primaryKey +:+ suffix ≠ primaryKeyCondition primaryKey.
Proof.
  intros Hsuffix Heq. apply (f_equal String.length) in Heq.
  rewrite string_length_app in Heq. lia.
Qed.

(** X7. In a result of [_constructQueryParams] the key condition is the
    condition on the primary key alone exactly when the sort-key argument
    is omitted or the empty string; then [:pkvalue] is the only value
    bound. *)
Theorem constructQueryParams_no_sort_condition tableName primaryKey
    primaryKeyValue sortKey arg (parameters : QueryParams.t) :
  _constructQueryParams tableName primaryKey primaryKeyValue sortKey arg
  = Ok parameters →
  (KeyConditionExpression parameters = primaryKeyCondition primaryKey
   ↔ arg = SortKeyUndefined ∨ arg = SortKeyString "") ∧
  (arg = SortKeyUndefined ∨ arg = SortKeyString "" →
   ExpressionAttributeValues parameters = {[ ":pkvalue" := primaryKeyValue ]}).
Proof.
  unfold _constructQueryParams, appendKeyCondition, setValue.
  destruct arg as [|s|condition]; cbn [truthy].
  - intros [= <-]. split; [|done]. split; [by left|done].
  - destruct (String.eqb_spec s "") as [->|Hs]; cbn [negb].
    + intros [= <-]. split; [|done]. split; [by right|done].
    + intros [= <-].
      cbn [KeyConditionExpression ExpressionAttributeValues].
      split; [split|].
      * intros Heq. exfalso. revert Heq.
        apply primaryKeyCondition_extended.
        rewrite !string_length_app. simpl. lia.
      * by intros [[=]|[= ->]].
      * by intros [[=]|[= ->]].
  - cbv zeta. intros Hrun. split; [split|]; [|by intros [[=]|[=]]..].
    intros Heq. exfalso. revert Hrun Heq.
    repeat case_match; intros [= <-]; try done.
    all: cbn [KeyConditionExpression].
    all: apply primaryKeyCondition_extended.
    all: rewrite !string_length_app; simpl; lia.
Qed.

(** X8. Every result of [_constructQueryParams] is for the given table,
    binds [:pkvalue] to the primary-key value, has a key condition that
    starts with the condition on the primary key, and binds no placeholder
    other than [:pkvalue], [:skvalue], [:skvalue1] and [:skvalue2]. *)
Theorem constructQueryParams_result tableName primaryKey primaryKeyValue
    sortKey arg (parameters : QueryParams.t) :
  _constructQueryParams tableName primaryKey primaryKeyValue sortKey arg
  = Ok parameters →
  TableName parameters = tableName ∧
  ExpressionAttributeValues parameters !! ":pkvalue" = Some primaryKeyValue ∧
  (∃ rest,
     KeyConditionExpression parameters
     = primaryKeyCondition primaryKey +:+ rest) ∧
  (∀ k, is_Some (ExpressionAttributeValues parameters !! k) →
        k ∈ [":pkvalue"; ":skvalue"; ":skvalue1"; ":skvalue2"]).
Proof.
  unfold _constructQueryParams, appendKeyCondition, setValue.
  intros Hrun.
  assert (∃ rest values,
            parameters =
            {| TableName := tableName;
               KeyConditionExpression :=
                 primaryKeyCondition primaryKey +:+ rest;
               ExpressionAttributeValues := values |} ∧
            (values = {[ ":pkvalue" := primaryKeyValue ]} ∨
             (∃ v, values
                   = <[":skvalue" := v]> {[ ":pkvalue" := primaryKeyValue ]}) ∨
             (∃ v1 v2,
                values
                = <[":skvalue2" := v2]>
                    (<[":skvalue1" := v1]>
                       {[ ":pkvalue" := primaryKeyValue ]}))))
    as (rest & values & -> & Hvalues).
  { revert Hrun. cbv zeta.
    cbn [TableName KeyConditionExpression ExpressionAttributeValues].
    repeat case_match; intros [= <-]; try done.
    all: try (by exists "", {[ ":pkvalue" := primaryKeyValue ]};
                split; [rewrite string_app_nil_r|left]).
    all: eexists _, _; split; [reflexivity|]; eauto. }
  cbn [TableName KeyConditionExpression ExpressionAttributeValues].
  split; [done|]. split; [|split; [by eexists|]].
  - destruct Hvalues as [->|[[v ->]|(v1 & v2 & ->)]]; done.
  - intros k.
    destruct Hvalues as [->|[[v ->]|(v1 & v2 & ->)]].
    all: rewrite ?lookup_insert_is_Some, ?lookup_singleton_is_Some.
    all: intuition (subst; repeat constructor).
Qed.

(** X9. For a table whose key schema has no [RANGE] element, a non-empty
    string as sort-key argument still gives a [begins_with] condition, on
    the attribute name [undefined]. *)
Theorem queryParamsFor_no_range_key
    (describeTable : string → list KeySchemaElement) tableName
    primaryKeyValue (s : string) :
  Forall (λ e, KeyType e ≠ "RANGE") (describeTable tableName) →
  s ≠ "" →
  ∃ parameters,
    queryParamsFor describeTable tableName primaryKeyValue (SortKeyString s)
    = Ok parameters ∧
    KeyConditionExpression parameters
    = interp (_getTableKeySchema describeTable tableName !! "HASH")
        +:+ " = :pkvalue and begins_with(undefined, :skvalue)".
Proof.
  intros Hschema Hs. eexists. split.
  - unfold queryParamsFor, _constructQueryParams. cbn [truthy].
    apply String.eqb_neq in Hs. rewrite Hs. cbn [negb]. reflexivity.
  - unfold appendKeyCondition, setValue. cbn [KeyConditionExpression].
    unfold _getTableKeySchema at 2.
    rewrite keySchema_foldl_ne by done. rewrite lookup_empty. cbn [interp].
    by rewrite string_app_assoc.
Qed.
End QueryBuilderFacts.

(** ** Filters: expressions, errors and what every result has *)

Section FilterBuilderFacts.
Import FilterQuery.
Implicit Types (filter : Filter.t) (filters : list Filter.t).
Implicit Types (tableName : string) (parameters : ScanParams.t).

(** X10. The expression [_buildFilterQuery] returns for each allow-listed
    operation, with [a] the attribute: [<op>(a, :aValue)] for
    [begins_with], [contains] and [not contains]; [attribute_exists(a)] and
    [attribute_not_exists(a)], which bind no value; [a between :aValue1 and
    :aValue2]; and [a <op> :aValue] for the six comparison operators.  The
    placeholders are bound to [value], or to [value1] and [value2]. *)
Theorem buildFilterQuery_expression filter :
  let a := interp (Filter.attribute filter) in
  let operation := default "=" (Filter.operation filter) in
  (In operation functionOperations →
   _buildFilterQuery filter =
   Ok {| expression := operation +:+ "(" +:+ a +:+ ", :" +:+ a +:+ "Value)";
         expressionAttributeValues :=
           {[ ":" +:+ a +:+ "Value" := Filter.value filter ]} |}) ∧
  (operation = "exists" →
   _buildFilterQuery filter =
   Ok {| expression := "attribute_exists(" +:+ a +:+ ")";
         expressionAttributeValues := ∅ |}) ∧
  (operation = "not exists" →
   _buildFilterQuery filter =
   Ok {| expression := "attribute_not_exists(" +:+ a +:+ ")";
         expressionAttributeValues := ∅ |}) ∧
  (operation = "between" →
   _buildFilterQuery filter =
   Ok {| expression :=
           a +:+ " between :" +:+ a +:+ "Value1 and :" +:+ a +:+ "Value2";
         expressionAttributeValues :=
           <[ ":" +:+ a +:+ "Value2" := Filter.value2 filter ]>
             {[ ":" +:+ a +:+ "Value1" := Filter.value1 filter ]} |}) ∧
  (In operation comparisonOperations →
   _buildFilterQuery filter =
   Ok {| expression := a +:+ " " +:+ operation +:+ " :" +:+ a +:+ "Value";
         expressionAttributeValues :=
           {[ ":" +:+ a +:+ "Value" := Filter.value filter ]} |}).
Proof.
  cbv zeta. unfold _buildFilterQuery. cbv zeta.
  repeat split.
  - intros Hop. simpl in Hop.
    destruct Hop as [<-|[<-|[<-|[]]]]; reflexivity.
  - by intros ->.
  - by intros ->.
  - by intros ->.
  - intros Hop. simpl in Hop.
    destruct Hop as [<-|[<-|[<-|[<-|[<-|[<-|[]]]]]]]; reflexivity.
Qed.

Lemma addFilter_valid filter (i : nat) parameters :
  In (default "=" (Filter.operation filter)) filterOperations →
  ∃ parameters', addFilter filter i parameters = Ok parameters'.
Proof.
  intros Hvalid. destruct (buildFilterQuery_Ok filter Hvalid) as [query Hq].
  unfold addFilter. rewrite Hq. cbn [mbind result_bind].
  destruct (0 <? i); by eexists.
Qed.

Lemma addFilter_invalid filter (i : nat) parameters :
  ¬ In (default "=" (Filter.operation filter)) filterOperations →
  addFilter filter i parameters
  = Throw (invalidOperation (default "=" (Filter.operation filter))).
Proof.
  intros Hinvalid. unfold addFilter.
  by rewrite buildFilterQuery_Throw.
Qed.

Lemma forEachFrom_addFilter_Throw filters : ∀ (i : nat) parameters message,
  forEachFrom addFilter i filters parameters = Throw message
  ↔ ∃ before filter after,
      filters = before ++ filter :: after ∧
      Forall (λ f, In (default "=" (Filter.operation f)) filterOperations)
             before ∧
      ¬ In (default "=" (Filter.operation filter)) filterOperations ∧
      message = invalidOperation (default "=" (Filter.operation filter)).
Proof.
  induction filters as [|f filters IH]; intros i parameters message.
  { split; [done|]. by intros ([|??] & ? & ? & [=] & _). }
  cbn [forEachFrom].
  destruct (includes filterOperations (default "=" (Filter.operation f)))
    eqn:Hvalid.
  - apply includes_In in Hvalid.
    destruct (addFilter_valid f i parameters Hvalid) as [parameters' ->].
    cbn [mbind result_bind]. rewrite IH. split.
    + intros (before & filter & after & -> & Hbefore & Hfilter & ->).
      exists (f :: before), filter, after. by repeat split; [constructor|..].
    + intros ([|f' before] & filter & after & [= ??] & Hbefore & Hfilter & ->).
      * by subst.
      * subst. apply Forall_cons in Hbefore as [_ Hbefore].
        by exists before, filter, after.
  - apply includes_not_In in Hvalid.
    rewrite addFilter_invalid by done. cbn [mbind result_bind]. split.
    + intros [= <-]. by exists [], f, filters.
    + intros ([|f' before] & filter & after & [= ??] & Hbefore & Hfilter & ->).
      * by subst.
      * subst. by apply Forall_cons in Hbefore as [? _].
Qed.

(** X11. For a list of filters [_constructScanParams] throws exactly when
    the operation of some filter is not allow-listed, and the message
    names the operation of the first such filter. *)
Theorem constructScanParams_Throw tableName filters (message : string) :
  _constructScanParams tableName (FiltersArray filters) = Throw message
  ↔ ∃ before filter after,
      filters = before ++ filter :: after ∧
      Forall (λ f, In (default "=" (Filter.operation f)) filterOperations)
             before ∧
      ¬ In (default "=" (Filter.operation filter)) filterOperations ∧
      message = invalidOperation (default "=" (Filter.operation filter)).
Proof.
  unfold _constructScanParams, forEach.
  apply forEachFrom_addFilter_Throw.
Qed.

(** X12. A single filter object gives the same parameters, or the same
    error, as the list that holds only this filter. *)
Theorem constructScanParams_single tableName filter :
  _constructScanParams tableName (FiltersObject filter)
  = _constructScanParams tableName (FiltersArray [filter]).
Proof.
  unfold _constructScanParams, forEach. cbn [forEachFrom].
  unfold addFilter.
  destruct (_buildFilterQuery filter) as [query|message]; reflexivity.
Qed.

Lemma addFilter_result filter (i : nat) parameters parameters' :
  addFilter filter i parameters = Ok parameters' →
  ScanParams.TableName parameters' = ScanParams.TableName parameters ∧
  is_Some (ScanParams.FilterExpression parameters') ∧
  is_Some (ScanParams.ExpressionAttributeValues parameters').
Proof.
  unfold addFilter.
  destruct (_buildFilterQuery filter) as [query|message]; [|done].
  cbn [mbind result_bind].
  destruct (0 <? i); intros [= <-]; simpl; eauto.
Qed.

Lemma forEachFrom_addFilter_result filters : ∀ (i : nat) parameters result,
  forEachFrom addFilter i filters parameters = Ok result →
  ScanParams.TableName result = ScanParams.TableName parameters ∧
  (filters = [] → result = parameters) ∧
  (filters ≠ [] →
   is_Some (ScanParams.FilterExpression result) ∧
   is_Some (ScanParams.ExpressionAttributeValues result)).
Proof.
  induction filters as [|f filters IH]; intros i parameters result.
  { intros [= <-]. by repeat split. }
  cbn [forEachFrom].
  destruct (addFilter f i parameters) as [parameters'|message] eqn:Hf;
    [|done].
  cbn [mbind result_bind]. intros Hrest.
  destruct (addFilter_result _ _ _ _ Hf) as (Hname & Hfe & Heav).
  destruct (IH _ _ _ Hrest) as (Hname' & Hnil & Hcons).
  split; [congruence|]. split; [done|]. intros _.
  destruct filters as [|f' filters].
  - by rewrite (Hnil eq_refl).
  - by apply Hcons.
Qed.

(** X13. Every result of [_constructScanParams] is for the given table;
    it has a [FilterExpression] exactly when it has
    [ExpressionAttributeValues], and it has neither exactly when the
    filters are omitted or are the empty list. *)
Theorem constructScanParams_result tableName (filters : FiltersArg)
    parameters :
  _constructScanParams tableName filters = Ok parameters →
  ScanParams.TableName parameters = tableName ∧
  (ScanParams.FilterExpression parameters = None
   ↔ ScanParams.ExpressionAttributeValues parameters = None) ∧
  (ScanParams.FilterExpression parameters = None
   ↔ filters = FiltersUndefined ∨ filters = FiltersArray []).
Proof.
  unfold _constructScanParams. destruct filters as [|filters|filter].
  - intros [= <-]. simpl. by repeat split; [left].
  - unfold forEach. intros Hrun.
    destruct (forEachFrom_addFilter_result _ _ _ _ Hrun)
      as (Hname & Hnil & Hcons).
    split; [done|]. destruct filters as [|f filters].
    + rewrite (Hnil eq_refl). simpl. by repeat split; [right].
    + destruct Hcons as [[e He] [m Hm]]; [done|]. rewrite He, Hm.
      repeat split; try done. by intros [[=]|[=]].
  - destruct (_buildFilterQuery filter) as [query|message]; [|done].
    cbn [mbind result_bind]. intros [= <-]. simpl.
    repeat split; try done. by intros [[=]|[=]].
Qed.

Lemma buildFilterQuery_binds_value filter :
  In (default "=" (Filter.operation filter))
     (comparisonOperations ++ functionOperations) →
  ∃ e,
    _buildFilterQuery filter =
    Ok {| expression := e;
          expressionAttributeValues :=
            {[ ":" +:+ interp (Filter.attribute filter) +:+ "Value"
               := Filter.value filter ]} |}.
Proof.
  intros Hop. unfold _buildFilterQuery. cbv zeta. simpl in Hop.
  destruct Hop as [<-|[<-|[<-|[<-|[<-|[<-|[<-|[<-|[<-|[]]]]]]]]]];
    by eexists.
Qed.

(** X14. Two filters on the same attribute that both compare it with a
    value share the placeholder [:<attribute>Value]: the parameters for
    the two filters join both expressions but bind the placeholder once,
    to the value of the second filter. *)
Theorem constructScanParams_same_attribute tableName (first second : Filter.t) :
  Filter.attribute first = Filter.attribute second →
  In (default "=" (Filter.operation first))
     (comparisonOperations ++ functionOperations) →
  In (default "=" (Filter.operation second))
     (comparisonOperations ++ functionOperations) →
  ∃ query1 query2,
    _buildFilterQuery first = Ok query1 ∧
    _buildFilterQuery second = Ok query2 ∧
    _constructScanParams tableName (FiltersArray [first; second]) =
    Ok {| ScanParams.TableName := tableName;
          ScanParams.FilterExpression :=
            Some (expression query1 +:+ " and " +:+ expression query2);
          ScanParams.ExpressionAttributeValues :=
            Some {[ ":" +:+ interp (Filter.attribute second) +:+ "Value"
                    := Filter.value second ]} |}.
Proof.
  intros Hsame Hfirst Hsecond.
  destruct (buildFilterQuery_binds_value first Hfirst) as [e1 H1].
  destruct (buildFilterQuery_binds_value second Hsecond) as [e2 H2].
  eexists _, _. split; [exact H1|]. split; [exact H2|].
  unfold _constructScanParams, forEach. cbn [forEachFrom].
  rewrite (addFilter_first _ _ _ H1). cbn [mbind result_bind].
  rewrite (addFilter_next _ _ 1 _ H2) by lia.
  cbn [mbind result_bind ScanParams.TableName ScanParams.FilterExpression
       ScanParams.ExpressionAttributeValues expression
       expressionAttributeValues interp].
  unfold spread. cbn [from_option id]. rewrite Hsame.
  by rewrite <- insert_union_singleton_l, insert_singleton_eq.
Qed.
End FilterBuilderFacts.

(** ** Auto-pagination: rejection, waiting, and what is not read *)

Section PaginationFurther.
Context {Params Item Key : Type}.
Implicit Types (parameters : Params) (method : string).
Implicit Types (page results last aggregatedResults : Results Item Key).
Implicit Types (pages before rest : list (Results Item Key)).
Implicit Types (lastEvaluatedKey : option Key).

Lemma autoPaginate_rejected parameters method aggregatedResults
    lastEvaluatedKey pages :
  ¬ validMethod method →
  _autoPaginate parameters method aggregatedResults lastEvaluatedKey pages
  = ([], Rejected ("Invalid method " +:+ method +:+ " provided.")).
Proof.
  intros Hinvalid.
  destruct (String.eqb_spec method "scan") as [->|Hscan].
  { destruct Hinvalid. by left. }
  destruct (String.eqb_spec method "query") as [->|Hquery].
  { destruct Hinvalid. by right. }
  destruct pages; simpl.
  all: apply String.eqb_neq in Hscan, Hquery; by rewrite Hscan, Hquery.
Qed.

(** X15. When the method is neither ['scan'] nor ['query'], [_autoPaginate]
    issues no call and is rejected with [Invalid method <method> provided.];
    for the two methods it always issues a first call, with the given
    parameters and start key.  So it issues no call exactly when the method
    is invalid. *)
Theorem autoPaginate_invalid_method parameters method aggregatedResults
    lastEvaluatedKey pages :
  let run :=
    _autoPaginate parameters method aggregatedResults lastEvaluatedKey pages in
  (¬ validMethod method →
   run = ([], Rejected ("Invalid method " +:+ method +:+ " provided."))) ∧
  (validMethod method →
   run.1 !! 0 = Some (Call method {| params := parameters;
                                     ExclusiveStartKey := lastEvaluatedKey |})) ∧
  (run.1 = [] ↔ ¬ validMethod method).
Proof.
  cbv zeta. split; [apply autoPaginate_rejected|].
  split; [apply autoPaginate_head|].
  split.
  - intros Hnil Hvalid.
    pose proof (autoPaginate_head parameters method aggregatedResults
                                  lastEvaluatedKey pages Hvalid) as Hhead.
    by rewrite Hnil in Hhead.
  - intros Hinvalid. by rewrite autoPaginate_rejected.
Qed.

(** X16. For the two methods, [_autoPaginate] is fulfilled exactly when some
    page of the script has no [LastEvaluatedKey]; while every answer
    carries one it keeps asking: after [n] such answers it has issued
    [n + 1] calls and waits for the next answer. *)
Theorem autoPaginate_fulfilled_iff parameters method pages :
  validMethod method →
  ∀ aggregatedResults lastEvaluatedKey,
    let run :=
      _autoPaginate parameters method aggregatedResults lastEvaluatedKey
                    pages in
    ((∃ result, run.2 = Fulfilled result)
     ↔ Exists (λ page, LastEvaluatedKey page = None) pages) ∧
    (Forall (λ page, is_Some (LastEvaluatedKey page)) pages →
     run.2 = Pending ∧ length run.1 = 2 * length pages + 1).
Proof.
  intros Hvalid. cbv zeta.
  induction pages as [|page pages IH]; intros agg lek.
  - rewrite autoPaginate_pending by done. cbn [fst snd]. split; [|done].
    rewrite Exists_nil. split; [by intros [? [=]]|done].
  - destruct (LastEvaluatedKey page) as [key|] eqn:Hkey.
    + rewrite (autoPaginate_next _ _ _ _ _ key) by done.
      cbv zeta. cbn [fst snd].
      destruct (IH (accumulate agg page) (Some key)) as [Hiff Hpending].
      split.
      * rewrite Hiff, Exists_cons. split; [by right|].
        intros [Hhere|Hlater]; [congruence|done].
      * intros [_ Hall]%Forall_cons.
        destruct (Hpending Hall) as [-> Hlen]. split; [done|].
        simpl. rewrite Hlen. lia.
    + rewrite autoPaginate_last by done. cbn [fst snd]. split.
      * split; [|by eexists]. intros _. by apply Exists_cons_hd.
      * intros [[key' Hkey'] _]%Forall_cons. congruence.
Qed.

(** X17. [_autoPaginate] reads the script up to the first page without
    [LastEvaluatedKey] and no further: what follows that page changes
    neither the calls nor the result. *)
Theorem autoPaginate_ignores_rest parameters method before last rest :
  Forall (λ page, is_Some (LastEvaluatedKey page)) before →
  LastEvaluatedKey last = None →
  ∀ aggregatedResults lastEvaluatedKey,
    _autoPaginate parameters method aggregatedResults lastEvaluatedKey
                  (before ++ last :: rest)
    = _autoPaginate parameters method aggregatedResults lastEvaluatedKey
                    (before ++ [last]).
Proof.
  intros Hbefore Hlast.
  destruct (decide (validMethod method)) as [Hvalid|Hinvalid]; cycle 1.
  { intros agg lek. by rewrite !autoPaginate_rejected. }
  induction Hbefore as [|page before [key Hkey] _ IH]; intros agg lek.
  - simpl app. by rewrite !autoPaginate_last.
  - simpl app. rewrite !(autoPaginate_next _ _ _ _ _ key) by done.
    cbv zeta. by rewrite IH.
Qed.

(** X18. When the [Count] of the accumulator and of every page is the
    number of its [Items], so is the [Count] of the aggregate
    [_autoPaginate] is fulfilled with. *)
Theorem autoPaginate_counts_items parameters method pages :
  Forall countsItems pages →
  ∀ aggregatedResults lastEvaluatedKey result,
    countsItems aggregatedResults →
    (_autoPaginate parameters method aggregatedResults lastEvaluatedKey
                   pages).2 = Fulfilled result →
    countsItems result.
Proof.
  destruct (decide (validMethod method)) as [Hvalid|Hinvalid]; cycle 1.
  { intros _ agg lek result _. by rewrite autoPaginate_rejected. }
  induction 1 as [|page pages Hpage _ IH]; intros agg lek result Hagg.
  { by rewrite autoPaginate_pending. }
  assert (countsItems (accumulate agg page)) as Hnext.
  { unfold countsItems, accumulate in *. simpl.
    rewrite length_app, Hagg, Hpage. lia. }
  destruct (LastEvaluatedKey page) as [key|] eqn:Hkey.
  - rewrite (autoPaginate_next _ _ _ _ _ key) by done. cbv zeta.
    cbn [snd]. by apply IH.
  - rewrite autoPaginate_last by done. cbn [snd]. by intros [= <-].
Qed.
End PaginationFurther.

(** ** The public functions *)

Section PublicFacts.
Context {Item Key : Type}.
Implicit Types (describeTable : string → list KeySchemaElement).
Implicit Types (tableName : string) (primaryKeyValue : jsval).
Implicit Types (pages : list (Results Item Key)).

Lemma accumulate_emptyResults (page : Results Item Key) :
  LastEvaluatedKey page = None → accumulate emptyResults page = page.
Proof.
  destruct page as [count scanned items key]. simpl. intros ->.
  unfold accumulate. simpl. f_equal; by destruct scanned.
Qed.

Lemma autoPaginate_single_page {Params : Type} (parameters : Params)
    (method : string) pages :
  validMethod method →
  (∀ page, head pages = Some page → LastEvaluatedKey page = None) →
  _autoPaginate parameters method emptyResults None pages
  = callOnce method parameters pages.
Proof.
  intros Hvalid Hhead. destruct pages as [|page pages].
  - by rewrite autoPaginate_pending.
  - rewrite autoPaginate_last by auto.
    rewrite accumulate_emptyResults by auto. done.
Qed.

(** X19. When the first answer of the service has no [LastEvaluatedKey],
    the functions with auto-pagination do exactly what [queryTable] and
    [scanTable] do: the same call, and the promise is fulfilled with that
    answer (or rejected with the same error). *)
Theorem withAutoPagination_single_page describeTable tableName
    primaryKeyValue (sortKeyValueOrKeyCondition : SortKeyArg)
    (filters : FiltersArg) pages :
  (∀ page, head pages = Some page → LastEvaluatedKey page = None) →
  queryTableWithAutoPagination describeTable tableName primaryKeyValue
                               sortKeyValueOrKeyCondition pages
  = queryTable describeTable tableName primaryKeyValue
               sortKeyValueOrKeyCondition pages ∧
  scanTableWithAutoPagination tableName filters pages
  = scanTable tableName filters pages.
Proof.
  intros Hhead.
  unfold queryTableWithAutoPagination, queryTable,
    scanTableWithAutoPagination, scanTable.
  split.
  - destruct (queryParamsFor _ _ _ _) as [parameters|message]; [|done].
    apply autoPaginate_single_page; [by right|done].
  - destruct (_constructScanParams _ _) as [parameters|message]; [|done].
    apply autoPaginate_single_page; [by left|done].
Qed.

(** X20. A filter whose operation is not allow-listed is refused before
    anything is sent: for a list of filters with such a filter, [scanTable]
    and [scanTableWithAutoPagination] issue no call and are rejected with
    [Invalid operation "<operation>" used.], for the operation of the
    first such filter. *)
Theorem invalid_operation_rejected tableName (before after : list Filter.t)
    (filter : Filter.t) pages :
  Forall (λ f, In (default "=" (Filter.operation f)) filterOperations)
         before →
  ¬ In (default "=" (Filter.operation filter)) filterOperations →
  scanTable tableName (FiltersArray (before ++ filter :: after)) pages
  = ([], Rejected (invalidOperation
                     (default "=" (Filter.operation filter)))) ∧
  scanTableWithAutoPagination tableName
    (FiltersArray (before ++ filter :: after)) pages
  = ([], Rejected (invalidOperation
                     (default "=" (Filter.operation filter)))).
Proof.
  intros Hbefore Hinvalid.
  assert (_constructScanParams tableName
            (FiltersArray (before ++ filter :: after))
          = Throw (invalidOperation
                     (default "=" (Filter.operation filter))))
    as Hthrow.
  { unfold _constructScanParams, forEach.
    apply forEachFrom_addFilter_Throw. by exists before, filter, after. }
  unfold scanTable, scanTableWithAutoPagination. by rewrite Hthrow.
Qed.
End PublicFacts.

(** ** The credential set-up *)

Section ConfigFacts.
Import Config.
Variable resolve : string → string.
Variable join : list string → string.
Variable homedir : string.
Variable existsSync : string → bool.

Lemma isSet_Some (x : option string) :
  isSet x = true ↔ ∃ s, x = Some s ∧ s ≠ "".
Proof.
  destruct x as [s|]; simpl.
  - rewrite negb_true_iff, String.eqb_neq. split; [by exists s|].
    by intros (? & [= <-] & ?).
  - split; [done|]. by intros (? & [=] & _).
Qed.

(** X21. The set-up script throws, with [Unable to set AWS credentials.],
    exactly when [AWS_CONFIG_FILE] is unset or empty, [AWS_ACCESS_KEY_ID]
    and [AWS_SECRET_ACCESS_KEY] are not both set and non-empty, and the file
    [~/.aws/credentials] does not exist.  In every case it has first set
    the region: to [AWS_REGION] as given, and to [us-east-1] when
    [AWS_REGION] is unset. *)
Theorem config_throws (env : Env) :
  let run := config resolve join homedir existsSync env in
  (∀ message,
     run.2 = Some message
     ↔ isSet (AWS_CONFIG_FILE env) = false ∧
       (isSet (AWS_ACCESS_KEY_ID env) = false
        ∨ isSet (AWS_SECRET_ACCESS_KEY env) = false) ∧
       existsSync (join [homedir; ".aws"; "credentials"]) = false ∧
       message = "Unable to set AWS credentials.") ∧
  run.1 !! 1 = Some (Update (default "us-east-1" (AWS_REGION env))) ∧
  (∀ region i, run.1 !! i = Some (Update region) → i = 1).
Proof.
  cbv zeta. unfold config.
  destruct (isSet (AWS_CONFIG_FILE env)) eqn:Hfile;
    [|destruct (isSet (AWS_ACCESS_KEY_ID env)) eqn:Hid;
      [destruct (isSet (AWS_SECRET_ACCESS_KEY env)) eqn:Hsecret|];
      cbn [andb];
      try destruct (existsSync (join [homedir; ".aws"; "credentials"]))
        eqn:Hexists].
  all: cbn [fst snd]; split; [|split; [done|]].
  all: try (intros message; split;
            [try done; by intros [= <-]; intuition
            |by intros (? & [?|?] & ? & ?); subst]).
  all: intros region [|[|[|[|[|i]]]]] Hi; simplify_eq/=; done.
Qed.

(** X22. The set-up script loads credentials from a file exactly when
    [AWS_CONFIG_FILE] is set and not empty, whatever the other variables
    are, and then from the resolved path of that file. *)
Theorem config_loadFromPath (env : Env) (path : string) :
  LoadFromPath path ∈ (config resolve join homedir existsSync env).1
  ↔ ∃ file,
      AWS_CONFIG_FILE env = Some file ∧ file ≠ "" ∧ path = resolve file.
Proof.
  unfold config.
  destruct (isSet (AWS_CONFIG_FILE env)) eqn:Hfile.
  - apply isSet_Some in Hfile as (file & Hfile & Hne). rewrite Hfile.
    cbn [fst from_option id]. split.
    + intros Hin. exists file. split; [done|]. split; [done|].
      apply elem_of_app in Hin as [Hin|Hin].
      * repeat (apply elem_of_cons in Hin as [[=]|Hin]).
        by apply elem_of_nil in Hin.
      * apply elem_of_cons in Hin as [[=]|Hin].
        apply elem_of_cons in Hin as [[= ->]|Hin]; [done|].
        by apply elem_of_nil in Hin.
    + intros (file' & [= <-] & _ & ->).
      apply elem_of_app. right. right. left.
  - split.
    + intros Hin. exfalso. revert Hin.
      repeat case_match; cbn [fst]; intros Hin.
      all: try apply elem_of_app in Hin as [Hin|Hin].
      all: repeat (apply elem_of_cons in Hin as [[=]|Hin]).
      all: by apply elem_of_nil in Hin.
    + intros (file & Hsome & Hne & _).
      assert (isSet (AWS_CONFIG_FILE env) = true) as Hset
        by (apply isSet_Some; eauto).
      congruence.
Qed.
End ConfigFacts.

(** ** The further properties on the sample inputs *)

Section FurtherSampleRuns.
Import BatchWrite.

Example batchWrite_two_errors_continue :
  snd <$> (match batchWrite (seq 0 51) "T"
                   [ {| err := Some "ProvisionedThroughputExceeded";
                        data := None |};
                     cleanReply ]
           with
           | Ok run => Some run
           | Throw _ => None
           end) =
  Some [ callFor "T" (seq 0 25); callFor "T" (seq 25 25); callFor "T" [50] ].
Proof. vm_compute. reflexivity. Qed.

Lemma batchWrite_sends_all_witness :
  ∃ map chunks,
    batchWrite (seq 0 30) "T" [cleanReply] =
    Ok (map, callFor "T" <$> chunks) ∧
    chunksOf map = Some <$> chunks ∧
    concat chunks = seq 0 30 ∧
    Forall (λ chunk, length chunk ≤ 25) chunks.
Proof.
  apply (batchWrite_sends_all (seq 0 30) "T" [cleanReply]).
  - repeat constructor.
  - vm_compute. lia.
Defined.

Lemma batchWrite_stops_at_unprocessed_witness :
  ∃ map chunks,
    batchWrite (seq 0 60) "T" ([cleanReply] ++ dirtyReply :: [cleanReply]) =
    Ok (map, callFor "T" <$> take (S (length [cleanReply])) chunks) ∧
    chunksOf map = Some <$> chunks ∧
    concat chunks = seq 0 60.
Proof.
  apply (batchWrite_stops_at_unprocessed (seq 0 60) "T" [cleanReply]
                                         dirtyReply [cleanReply]).
  - repeat constructor.
  - vm_compute. reflexivity.
Defined.

Lemma constructQueryParams_no_sort_condition_witness :
  let parameters :=
    {| QueryParams.TableName := "T";
       QueryParams.KeyConditionExpression := "id = :pkvalue";
       QueryParams.ExpressionAttributeValues :=
         {[ ":pkvalue" := JStr "a" ]} |} in
  (QueryParams.KeyConditionExpression parameters
   = primaryKeyCondition (Some "id")
   ↔ SortKeyString "" = SortKeyUndefined ∨ SortKeyString "" = SortKeyString "")
  ∧ (SortKeyString "" = SortKeyUndefined ∨ SortKeyString "" = SortKeyString ""
     → QueryParams.ExpressionAttributeValues parameters
       = {[ ":pkvalue" := JStr "a" ]}).
Proof.
  apply (constructQueryParams_no_sort_condition "T" (Some "id") (JStr "a")
           (Some "ts") (SortKeyString "")).
  vm_compute. reflexivity.
Defined.

Lemma constructQueryParams_result_witness :
  let parameters :=
    {| QueryParams.TableName := "T";
       QueryParams.KeyConditionExpression :=
         "id = :pkvalue and ts between :skvalue1 and :skvalue2 ";
       QueryParams.ExpressionAttributeValues :=
         <[":skvalue2" := JNum 9]>
           (<[":skvalue1" := JNum 1]> {[ ":pkvalue" := JStr "a" ]}) |} in
  QueryParams.TableName parameters = "T" ∧
  QueryParams.ExpressionAttributeValues parameters !! ":pkvalue"
  = Some (JStr "a") ∧
  (∃ rest,
     QueryParams.KeyConditionExpression parameters
     = primaryKeyCondition (Some "id") +:+ rest) ∧
  (∀ k, is_Some (QueryParams.ExpressionAttributeValues parameters !! k) →
        k ∈ [":pkvalue"; ":skvalue"; ":skvalue1"; ":skvalue2"]).
Proof.
  apply (constructQueryParams_result "T" (Some "id") (JStr "a") (Some "ts")
           (SortKeyObject betweenCondition)).
  vm_compute. reflexivity.
Defined.

Lemma queryParamsFor_no_range_key_witness :
  ∃ parameters,
    queryParamsFor hashOnlySchema "T" (JStr "a") (SortKeyString "2020")
    = Ok parameters ∧
    QueryParams.KeyConditionExpression parameters
    = interp (_getTableKeySchema hashOnlySchema "T" !! "HASH")
        +:+ " = :pkvalue and begins_with(undefined, :skvalue)".
Proof.
  apply (queryParamsFor_no_range_key hashOnlySchema "T" (JStr "a") "2020").
  - repeat constructor. discriminate.
  - discriminate.
Defined.

Lemma constructScanParams_result_witness :
  let parameters :=
    {| ScanParams.TableName := "T";
       ScanParams.FilterExpression :=
         Some ("age > :ageValue and not contains(name, :nameValue)"
                 +:+ " and age between :ageValue1 and :ageValue2");
       ScanParams.ExpressionAttributeValues :=
         Some (<[":ageValue" := JNum 18]>
                 (<[":nameValue" := JStr "A"]>
                    (<[":ageValue1" := JNum 1]>
                       {[ ":ageValue2" := JNum 2 ]}))) |} in
  ScanParams.TableName parameters = "T" ∧
  (ScanParams.FilterExpression parameters = None
   ↔ ScanParams.ExpressionAttributeValues parameters = None) ∧
  (ScanParams.FilterExpression parameters = None
   ↔ FiltersArray sampleFilters = FiltersUndefined
     ∨ FiltersArray sampleFilters = FiltersArray []).
Proof.
  apply (constructScanParams_result "T" (FiltersArray sampleFilters)).
  vm_compute. reflexivity.
Defined.

Lemma constructScanParams_same_attribute_witness :
  ∃ query1 query2,
    _buildFilterQuery olderThan18 = Ok query1 ∧
    _buildFilterQuery youngerThan65 = Ok query2 ∧
    _constructScanParams "T" (FiltersArray [olderThan18; youngerThan65]) =
    Ok {| ScanParams.TableName := "T";
          ScanParams.FilterExpression :=
            Some (FilterQuery.expression query1 +:+ " and "
                    +:+ FilterQuery.expression query2);
          ScanParams.ExpressionAttributeValues :=
            Some {[ ":" +:+ interp (Filter.attribute youngerThan65)
                        +:+ "Value"
                    := Filter.value youngerThan65 ]} |}.
Proof.
  apply (constructScanParams_same_attribute "T" olderThan18 youngerThan65).
  - reflexivity.
  - simpl. tauto.
  - simpl. tauto.
Defined.

Lemma autoPaginate_fulfilled_iff_witness :
  let run :=
    _autoPaginate tt "scan" emptyResults None [samplePage1; samplePage2] in
  ((∃ result, run.2 = Fulfilled result)
   ↔ Exists (λ page, LastEvaluatedKey page = None)
            [samplePage1; samplePage2]) ∧
  (Forall (λ page, is_Some (LastEvaluatedKey page))
          [samplePage1; samplePage2] →
   run.2 = Pending ∧ length run.1 = 2 * length [samplePage1; samplePage2] + 1).
Proof.
  apply (autoPaginate_fulfilled_iff tt "scan" [samplePage1; samplePage2]).
  left. reflexivity.
Defined.

Lemma autoPaginate_ignores_rest_witness :
  _autoPaginate tt "query" emptyResults None
                ([samplePage1] ++ samplePage3 :: [samplePage2])
  = _autoPaginate tt "query" emptyResults None
                  ([samplePage1] ++ [samplePage3]).
Proof.
  apply (autoPaginate_ignores_rest tt "query" [samplePage1] samplePage3
                                   [samplePage2]).
  - repeat constructor. eexists. reflexivity.
  - reflexivity.
Defined.

Lemma autoPaginate_counts_items_witness :
  countsItems (totals [samplePage1; samplePage2; samplePage3]).
Proof.
  apply (autoPaginate_counts_items tt "scan"
           [samplePage1; samplePage2; samplePage3]
           (ltac:(repeat constructor)) emptyResults None).
  - reflexivity.
  - reflexivity.
Defined.

Lemma withAutoPagination_single_page_witness :
  queryTableWithAutoPagination sampleSchema "T" (JStr "a")
                               (SortKeyString "2020") [samplePage3]
  = queryTable sampleSchema "T" (JStr "a") (SortKeyString "2020")
               [samplePage3] ∧
  scanTableWithAutoPagination "T" (FiltersArray sampleFilters) [samplePage3]
  = scanTable "T" (FiltersArray sampleFilters) [samplePage3].
Proof.
  apply (withAutoPagination_single_page sampleSchema "T" (JStr "a")
           (SortKeyString "2020") (FiltersArray sampleFilters)
           [samplePage3]).
  intros page [= <-]. reflexivity.
Defined.
End FurtherSampleRuns.

(** ** More sample runs *)

Section MoreSampleRuns.
Import BatchWrite.

(** For the table [constructor] the test of the callback finds the
    inherited property in [{UnprocessedItems: {}}]: the run stops after
    the first chunk. *)
Example batchWrite_constructor_table :
  snd <$> (match batchWrite (seq 0 51) "constructor" [cleanReply; cleanReply]
           with
           | Ok run => Some run
           | Throw _ => None
           end) =
  Some [ callFor "constructor" (seq 0 25) ].
Proof. vm_compute. reflexivity. Qed.

Lemma invalid_operation_rejected_witness :
  scanTable (Item:=nat) (Key:=nat) "T"
    (FiltersArray ([olderThan18]
                   ++ Filter.mk (Some "age") (Some "like") (JNum 1)
                                JUndefined JUndefined
                   :: [youngerThan65]))
    [samplePage3]
  = ([], Rejected (invalidOperation "like")) ∧
  scanTableWithAutoPagination (Item:=nat) (Key:=nat) "T"
    (FiltersArray ([olderThan18]
                   ++ Filter.mk (Some "age") (Some "like") (JNum 1)
                                JUndefined JUndefined
                   :: [youngerThan65]))
    [samplePage3]
  = ([], Rejected (invalidOperation "like")).
Proof.
  apply (invalid_operation_rejected "T" [olderThan18] [youngerThan65]
           (Filter.mk (Some "age") (Some "like") (JNum 1)
                      JUndefined JUndefined)
           [samplePage3]).
  - constructor; [|constructor]. simpl. tauto.
  - simpl. intuition discriminate.
Defined.
End MoreSampleRuns.
